(** * MCP_Bootcamp: the LangChain MCP client and the terminal server

    A shallow embedding of

    - [MCP/clients/mcp_clients/langchain_mcp_lient.py]: the JSON encoder
      [CustomEncoder] and the session loop [run_agent];
    - [MCP/servers/terminal_server/app.py]: [_safe_path] and [create_file].

    Python text is modelled by [string]: one [ascii] per character, read as
    the code points 0..255.  Floats are left out of the value model. *)

From Stdlib Require Import ZArith Ascii String List Bool Lia DecimalString.
From stdpp Require Import base option list strings gmap fin_maps.

Local Open Scope string_scope.
Local Open Scope list_scope.
Local Set Warnings "-register-all".

(* ===================================================================== *)
(** * Python text operations *)
(* ===================================================================== *)

Module Text.

Definition nl : string := String "010"%char EmptyString.
Definition dq : string := String "034"%char EmptyString.

Definition code (c : ascii) : nat := nat_of_ascii c.

(** [str.lower] on one character: A..Z, and the upper-case letters of the
    Latin-1 block (all of 0xC0..0xDE but the sign 0xD7), move up by 32. *)
Definition lower_char (c : ascii) : ascii :=
  let n := code c in
  if (((65 <=? n) && (n <=? 90))
      || ((192 <=? n) && (n <=? 222) && negb (n =? 215)))%nat
  then ascii_of_nat (n + 32) else c.

Fixpoint lower (s : string) : string :=
  match s with
  | EmptyString => EmptyString
  | String c t => String (lower_char c) (lower t)
  end.

(** [str.isspace] on one character. *)
Definition is_space (c : ascii) : bool :=
  let n := code c in
  (((9 <=? n) && (n <=? 13)) || ((28 <=? n) && (n <=? 32))
   || (n =? 133) || (n =? 160))%nat.

Fixpoint lstrip (s : string) : string :=
  match s with
  | EmptyString => EmptyString
  | String c t => if is_space c then lstrip t else s
  end.

(** Drops the trailing white space: a character is kept when it is not
    white space or when something is kept after it. *)
Fixpoint rstrip (s : string) : string :=
  match s with
  | EmptyString => EmptyString
  | String c t =>
      match rstrip t with
      | EmptyString => if is_space c then EmptyString else String c EmptyString
      | r => String c r
      end
  end.

(** [s.strip()] *)
Definition strip (s : string) : string := rstrip (lstrip s).

(** [needle in hay] *)
Fixpoint contains (needle hay : string) : bool :=
  String.prefix needle hay
  || match hay with
     | EmptyString => false
     | String _ t => contains needle t
     end.

(** Truth value of a string: [if query:] *)
Definition truthy (s : string) : bool :=
  match s with EmptyString => false | _ => true end.

Definition hex_digit (n : nat) : ascii :=
  if (n <? 10)%nat then ascii_of_nat (48 + n) else ascii_of_nat (87 + n).

(** Two lower-case hexadecimal digits of a character code. *)
Definition hex2 (c : ascii) : string :=
  String (hex_digit (code c / 16)) (String (hex_digit (code c mod 16)) EmptyString).

(** Decimal text of an integer: [str(n)] and JSON's rendering of an int. *)
Definition int_repr (z : Z) : string := NilZero.string_of_int (Z.to_int z).

Fixpoint concat_map (f : ascii -> string) (s : string) : string :=
  match s with
  | EmptyString => EmptyString
  | String c t => f c +:+ concat_map f t
  end.

(** [sep.join(items)] *)
Fixpoint join (sep : string) (items : list string) : string :=
  match items with
  | [] => EmptyString
  | [x] => x
  | x :: rest => x +:+ sep +:+ join sep rest
  end.

Fixpoint spaces (n : nat) : string :=
  match n with
  | O => EmptyString
  | S k => String " "%char (spaces k)
  end.

End Text.

Import Text.

(* ===================================================================== *)
(** * Exceptions and Python values *)
(* ===================================================================== *)

(** An instance of [Exception]: its class name and its text [str(e)].
    Signals outside [Exception] ([KeyboardInterrupt] and the like), which
    [except Exception] does not catch, are not in the model. *)
Record exn : Type := Exn { exn_class : string; exn_text : string }.

Definition str_exn (e : exn) : string := exn_text e.

Definition TypeError (msg : string) : exn := Exn "TypeError" msg.
Definition ValueError (msg : string) : exn := Exn "ValueError" msg.
Definition EOFError : exn := Exn "EOFError" EmptyString.

(** Keys of a dict.  [KOther] stands for a hashable that JSON cannot use
    as a key (a tuple, say) and carries its [repr]. *)
Inductive pykey : Type :=
| KStr (s : string)
| KInt (z : Z)
| KBool (b : bool)
| KNone
| KOther (cls repr_ : string).

(** What the agent can return.  [PObj] is an instance of a class that the
    JSON encoder does not know: its class name, its [content] attribute if
    it has one, and the texts [str(o)] and [repr(o)]. *)
Inductive pyval : Type :=
| PNone
| PBool (b : bool)
| PInt (z : Z)
| PStr (s : string)
| PList (l : list pyval)
| PDict (d : list (pykey * pyval))
| PObj (cls : string) (content : option pyval) (str_ repr_ : string).

(** [o.__class__.__name__] *)
Definition class_name (o : pyval) : string :=
  match o with
  | PNone => "NoneType"
  | PBool _ => "bool"
  | PInt _ => "int"
  | PStr _ => "str"
  | PList _ => "list"
  | PDict _ => "dict"
  | PObj cls _ _ _ => cls
  end.

(** [o.content] when [hasattr(o, "content")], [None] when not.  The
    built-in values have no such attribute. *)
Definition getattr_content (o : pyval) : option pyval :=
  match o with
  | PObj _ content _ _ => content
  | _ => None
  end.

(* ===================================================================== *)
(** * CustomEncoder *)
(* ===================================================================== *)

Module Json.

(** [json.JSONEncoder.default]: always raises. *)
Definition JSONEncoder_default (o : pyval) : exn + pyval :=
  inl (TypeError ("Object of type " +:+ class_name o +:+ " is not JSON serializable")).

(** [CustomEncoder.default] *)
Definition default (o : pyval) : exn + pyval :=
  match getattr_content o with
  | Some c => inr (PDict [(KStr "type", PStr (class_name o)); (KStr "content", c)])
  | None => JSONEncoder_default o
  end.

(** One character of a JSON string under [ensure_ascii]. *)
Definition escape_char (c : ascii) : string :=
  let n := code c in
  if (n =? 34)%nat then "\" +:+ dq
  else if (n =? 92)%nat then "\\"
  else if (n =? 10)%nat then "\n"
  else if (n =? 13)%nat then "\r"
  else if (n =? 9)%nat then "\t"
  else if (n =? 8)%nat then "\b"
  else if (n =? 12)%nat then "\f"
  else if ((32 <=? n) && (n <=? 126))%nat then String c EmptyString
  else "\u00" +:+ hex2 c.

Definition encode_basestring_ascii (s : string) : string :=
  dq +:+ concat_map escape_char s +:+ dq.

(** A dict key as JSON text; [skipkeys] is false. *)
Definition encode_key (k : pykey) : exn + string :=
  match k with
  | KStr s => inr (encode_basestring_ascii s)
  | KInt z => inr (encode_basestring_ascii (int_repr z))
  | KBool true => inr (encode_basestring_ascii "true")
  | KBool false => inr (encode_basestring_ascii "false")
  | KNone => inr (encode_basestring_ascii "null")
  | KOther cls _ =>
      inl (TypeError ("keys must be str, int, float, bool or None, not " +:+ cls))
  end.

Definition newline_indent (lvl : nat) : string := nl +:+ spaces (2 * lvl).

(** The items of a list or dict at nesting level [lvl], already encoded,
    between the brackets [op] and [cl]. *)
Definition bracket (op cl : string) (lvl : nat) (items : list string) : string :=
  match items with
  | [] => op +:+ cl
  | _ => op +:+ newline_indent (S lvl)
         +:+ join ("," +:+ newline_indent (S lvl)) items
         +:+ newline_indent lvl +:+ cl
  end.

Definition dict_item (k v : string) : string := k +:+ ": " +:+ v.

(** [json.dumps(o, indent=2, cls=CustomEncoder)] at nesting level [lvl]:
    the first failure, in the order of the items, is the one raised.  An
    object is encoded as the value [default] returns for it. *)
Fixpoint iterencode (lvl : nat) (o : pyval) : exn + string :=
  match o with
  | PNone => inr "null"
  | PBool true => inr "true"
  | PBool false => inr "false"
  | PInt z => inr (int_repr z)
  | PStr s => inr (encode_basestring_ascii s)
  | PList l =>
      match (fix items (l : list pyval) : exn + list string :=
               match l with
               | [] => inr []
               | x :: l' =>
                   match iterencode (S lvl) x with
                   | inl e => inl e
                   | inr sx =>
                       match items l' with
                       | inl e => inl e
                       | inr rest => inr (sx :: rest)
                       end
                   end
               end) l with
      | inl e => inl e
      | inr ss => inr (bracket "[" "]" lvl ss)
      end
  | PDict d =>
      match (fix items (d : list (pykey * pyval)) : exn + list string :=
               match d with
               | [] => inr []
               | (k, v) :: d' =>
                   match encode_key k with
                   | inl e => inl e
                   | inr sk =>
                       match iterencode (S lvl) v with
                       | inl e => inl e
                       | inr sv =>
                           match items d' with
                           | inl e => inl e
                           | inr rest => inr (dict_item sk sv :: rest)
                           end
                       end
                   end
               end) d with
      | inl e => inl e
      | inr ss => inr (bracket "{" "}" lvl ss)
      end
  | PObj cls content _ _ =>
      match content with
      | None => inl (TypeError ("Object of type " +:+ cls +:+ " is not JSON serializable"))
      | Some c =>
          match iterencode (S lvl) c with
          | inl e => inl e
          | inr sc =>
              inr (bracket "{" "}" lvl
                     [dict_item (encode_basestring_ascii "type")
                                (encode_basestring_ascii cls);
                      dict_item (encode_basestring_ascii "content") sc])
          end
      end
  end.

Definition dumps (o : pyval) : exn + string := iterencode 0 o.

End Json.

(* ===================================================================== *)
(** * str and repr *)
(* ===================================================================== *)

Module Repr.

Definition printable (c : ascii) : bool :=
  let n := code c in
  (((32 <=? n) && (n <=? 126)) || ((161 <=? n) && negb (n =? 173)))%nat.

(** One character inside [repr] of a string quoted by the character of
    code [q]. *)
Definition repr_char (q : nat) (c : ascii) : string :=
  let n := code c in
  if ((n =? q) || (n =? 92))%nat then String "\"%char (String c EmptyString)
  else if (n =? 9)%nat then "\t"
  else if (n =? 10)%nat then "\n"
  else if (n =? 13)%nat then "\r"
  else if printable c then String c EmptyString
  else "\x" +:+ hex2 c.

(** Double quotes are chosen when the text has a single quote and no
    double quote. *)
Definition repr_str (s : string) : string :=
  let q := if contains "'" s && negb (contains dq s) then 34 else 39 in
  let qs := String (ascii_of_nat q) EmptyString in
  qs +:+ concat_map (repr_char q) s +:+ qs.

Definition repr_key (k : pykey) : string :=
  match k with
  | KStr s => repr_str s
  | KInt z => int_repr z
  | KBool true => "True"
  | KBool false => "False"
  | KNone => "None"
  | KOther _ r => r
  end.

Fixpoint repr (o : pyval) : string :=
  match o with
  | PNone => "None"
  | PBool true => "True"
  | PBool false => "False"
  | PInt z => int_repr z
  | PStr s => repr_str s
  | PList l => "[" +:+ join ", " (List.map repr l) +:+ "]"
  | PDict d =>
      "{" +:+ join ", " (List.map (fun kv => repr_key (fst kv) +:+ ": " +:+ repr (snd kv)) d)
          +:+ "}"
  | PObj _ _ _ r => r
  end.

(** [str(o)]: a string is itself, an object has its own [__str__], and
    the built-in values print as their [repr]. *)
Definition str (o : pyval) : string :=
  match o with
  | PStr s => s
  | PObj _ _ s _ => s
  | _ => repr o
  end.

End Repr.

(* ===================================================================== *)
(** * The session loop: run_agent *)
(* ===================================================================== *)

Module Client.

(** What a run does to the outside, in order.  A start-up step records
    whether it succeeded. *)
Inductive event : Type :=
| StdioEnter (ok : bool)   (* stdio_client(server_params): child spawned *)
| StdioExit                (* its exit: child terminated, pipes closed *)
| SessionEnter (ok : bool) (* ClientSession(read, write) *)
| SessionExit
| Initialize (ok : bool)   (* session.initialize() *)
| LoadTools (ok : bool)    (* load_mcp_tools(session) *)
| CreateAgent (ok : bool)  (* create_react_agent(llm, tools) *)
| Input (prompt : string) (* input(prompt) *)
| Invoke (n : nat) (query : string)  (* agent.ainvoke({"messages": query}) *)
| Print (text : string).  (* print(text) *)

(** The collaborators of one run.  [None] is success for the start-up
    steps; [ainvoke n q] is what the [n]-th call of the agent does on the
    query [q]. *)
Record world : Type := World {
  spawn : option exn;
  session_enter : option exn;
  initialize : option exn;
  load_mcp_tools : option exn;
  create_react_agent : option exn;
  ainvoke : nat -> string -> exn + pyval;
  _model : string
}.

(** A computation: the events it caused, then an exception or a value. *)
Definition M (A : Type) : Type := list event * (exn + A).

Definition ret {A} (a : A) : M A := ([], inr a).
Definition raise {A} (e : exn) : M A := ([], inl e).
Definition emit (ev : event) : M unit := ([ev], inr tt).

Definition bind {A B} (m : M A) (k : A -> M B) : M B :=
  match m with
  | (t, inl e) => (t, inl e)
  | (t, inr a) => let '(t', r) := k a in (t ++ t', r)
  end.

Declare Scope session_scope.
Delimit Scope session_scope with session.
Notation "x <- m ; k" := (bind m (fun x => k))
  (at level 20, m at level 100, k at level 200, only parsing) : session_scope.
Notation "m ;; k" := (bind m (fun _ => k))
  (at level 100, k at level 200, only parsing, right associativity) : session_scope.
Local Open Scope session_scope.

(** [try: body  except Exception as e: handler e] *)
Definition try_except {A} (body : M A) (handler : exn -> M A) : M A :=
  match body with
  | (t, inl e) => let '(t', r) := handler e in (t ++ t', r)
  | (t, inr a) => (t, inr a)
  end.

(** [async with cm: body]: when entering fails nothing was acquired; once
    entered, the exit runs however the body ends, and an exception of the
    body goes on after it. *)
Definition async_with {A} (enter : M unit) (exit_ : event) (body : M A) : M A :=
  match enter with
  | (t, inl e) => (t, inl e)
  | (t, inr _) => let '(t', r) := body in (t ++ t' ++ [exit_], r)
  end.

(** A start-up step that succeeds or raises. *)
Definition step (ev : bool -> event) (outcome : option exn) : M unit :=
  match outcome with
  | None => emit (ev true)
  | Some e => ([ev false], inl e)
  end.

Definition print (text : string) : M unit := emit (Print text).

Section Run.

Variable W : world.

Definition agent_ainvoke (n : nat) (query : string) : M pyval :=
  match ainvoke W n query with
  | inl e => ([Invoke n query], inl e)
  | inr response => ([Invoke n query], inr response)
  end.

Definition lift {A} (r : exn + A) : M A := ([], r).

(** [try: formatted = json.dumps(response, indent=2, cls=CustomEncoder)]
    [except Exception: formatted = str(response)] *)
Definition format_response (response : pyval) : M string :=
  try_except (lift (Json.dumps response)) (fun _ => ret (Repr.str response)).

(** The test of the [except] clause around [agent.ainvoke]. *)
Definition is_rate_limit (msg : string) : bool :=
  contains "429" msg || contains "rate limit" (lower msg) || contains "quota" (lower msg).

Definition advisory : string :=
  nl +:+ "[Groq rate-limit/quota error]" +:+ nl
  +:+ "- model: " +:+ _model W +:+ nl
  +:+ "- Fix: wait and retry, or switch model via GROQ_MODEL, or check your Groq account limits."
  +:+ nl.

Definition prompt : string := nl +:+ "Query: ".

Definition banner : string := "MCP Client Started! Type 'quit' to exit.".

(** [while True:] with [n] calls of the agent so far and [stdin] still to
    be read.  An exhausted [stdin] makes [input] raise [EOFError]. *)
Fixpoint chat_loop (n : nat) (stdin : list string) : M unit :=
  match stdin with
  | [] =>
      try_except (([Input prompt], inl EOFError) : M unit)
        (fun e =>
           if String.eqb (exn_class e) "EOFError"
           then print (nl +:+ "EOF received. Exiting.") ;; ret tt         (* break *)
           else raise e)
  | line :: rest =>
      emit (Input prompt) ;;                                              (* input returns line *)
      let query := strip line in
      if String.eqb (lower query) "quit" then ret tt                      (* break *)
      else
        r <- try_except
               (response <- agent_ainvoke n query ; ret (Some response))
               (fun e =>
                  let msg := str_exn e in
                  if is_rate_limit msg
                  then print advisory ;; ret None                         (* continue *)
                  else raise e) ;
        match r with
        | None => chat_loop (S n) rest
        | Some response =>
            formatted <- format_response response ;
            print (nl +:+ "Response:") ;;
            print formatted ;;
            chat_loop (S n) rest
        end
  end.

(** The body under the two [async with]. *)
Definition session_body (once : option string) (stdin : list string) : M unit :=
  step Initialize (initialize W) ;;
  step LoadTools (load_mcp_tools W) ;;
  step CreateAgent (create_react_agent W) ;;
  match once with
  | Some o =>
      let query := strip o in
      (if truthy query then
         response <- agent_ainvoke 0 query ;
         formatted <- format_response response ;
         print formatted
       else ret tt) ;;
      ret tt                                                              (* return *)
  | None =>
      print banner ;;
      chat_loop 0 stdin
  end.

(** [run_agent()] with [args.once = once] and [stdin] on standard input. *)
Definition run_agent (once : option string) (stdin : list string) : M unit :=
  async_with (step StdioEnter (spawn W)) StdioExit
    (async_with (step SessionEnter (session_enter W)) SessionExit
       (session_body once stdin)).

End Run.

(** [asyncio.run(run_agent())] as the whole program: an exception that
    leaves [run_agent] ends the process with status 1. *)
Definition exit_status {A} (r : M A) : Z :=
  match snd r with
  | inr _ => 0%Z
  | inl _ => 1%Z
  end.

Definition trace {A} (r : M A) : list event := fst r.

(** The queries dispatched to the agent, in order. *)
Definition dispatches (t : list event) : list string :=
  omap (fun ev => match ev with Invoke _ q => Some q | _ => None end) t.

Definition printed (t : list event) : list string :=
  omap (fun ev => match ev with Print s => Some s | _ => None end) t.

(** The reads of the interactive prompt. *)
Definition inputs (t : list event) : list string :=
  omap (fun ev => match ev with Input p => Some p | _ => None end) t.

(** [t] happens, then [m]. *)
Definition after {A} (t : list event) (m : M A) : M A := (t ++ fst m, snd m).

(** A world whose start-up succeeds and whose agent is [f]. *)
Definition started (f : nat -> string -> exn + pyval) : world :=
  World None None None None None f "llama-3.1-8b-instant".

Definition startup_ok (W : world) : Prop :=
  spawn W = None /\ session_enter W = None /\ initialize W = None
  /\ load_mcp_tools W = None /\ create_react_agent W = None.

(** The start-up events of a run that got as far as the agent. *)
Definition startup : list event :=
  [StdioEnter true; SessionEnter true; Initialize true; LoadTools true; CreateAgent true].

(** The text that is printed for a response: the JSON text when there is
    one, [str(response)] otherwise. *)
Definition rendering (response : pyval) : string :=
  match Json.dumps response with
  | inr j => j
  | inl _ => Repr.str response
  end.

End Client.

(* ===================================================================== *)
(** * The process session behind the two context managers *)
(* ===================================================================== *)

Module Session.

Import Client.

Inductive session_state : Type := Disconnected | Initializing | Ready | Closed.

Record session : Type := Session {
  state : session_state;
  child_alive : bool;
  channel_open : bool
}.

Definition fresh : session := Session Disconnected false false.

(** Modelled from the spec: [open] of the Process Session (section 4.1),
    the entry of the context manager [stdio_client] of the mcp library,
    which this repository only calls: the child is spawned with its pipes
    and the session awaits the handshake. *)
Definition open_ (s : session) : session := Session Initializing true true.

(** Modelled from the spec: [close] of the Process Session (section 4.1),
    the exit of [stdio_client]: it closes the channel and terminates the
    child, on whatever state it finds the session in. *)
Definition close (s : session) : session := Session Closed false false.

(** The effect of one event of a run on the session. *)
Definition observe (s : session) (ev : event) : session :=
  match ev with
  | StdioEnter true => open_ s
  | Initialize true =>
      match state s with
      | Initializing => Session Ready (child_alive s) (channel_open s)
      | _ => s
      end
  | SessionExit => Session Closed (child_alive s) (channel_open s)
  | StdioExit => close s
  | _ => s
  end.

Definition replay (t : list event) : session := fold_left observe t fresh.

(** The events of the two context managers. *)
Definition is_lifecycle (ev : event) : bool :=
  match ev with
  | StdioEnter _ | StdioExit | SessionEnter _ | SessionExit => true
  | _ => false
  end.

End Session.

(* ===================================================================== *)
(** * The terminal server: paths and files under the workspace *)
(* ===================================================================== *)

Module Terminal.

(** ** pathlib *)

(** A [PurePosixPath]: whether it starts at the root, and its parts. *)
Record PurePath : Type := Path { anchored : bool; parts : list string }.

(** A resolved path is absolute: its parts below [/]. *)
Abbreviation resolved := (list string).

Fixpoint split (sep : ascii) (s : string) : list string :=
  match s with
  | EmptyString => [EmptyString]
  | String c t =>
      if Ascii.eqb c sep then EmptyString :: split sep t
      else match split sep t with
           | [] => [String c EmptyString]
           | h :: r => String c h :: r
           end
  end.

Definition is_part (p : string) : bool :=
  negb (String.eqb p EmptyString) && negb (String.eqb p ".").

(** [Path(s)]: empty segments and [.] are dropped, [..] is kept. *)
Definition parse (s : string) : PurePath :=
  Path (String.prefix "/" s) (List.filter is_part (split "/" s)).

(** [a / b]: an anchored right operand replaces the left one. *)
Definition joinpath (a b : PurePath) : PurePath :=
  if anchored b then b else Path (anchored a) (parts a ++ parts b).

Definition render (p : resolved) : string :=
  "/" +:+ join "/" p.

(** [p.parent]; the root is its own parent. *)
Definition parent (p : resolved) : resolved := removelast p.

Fixpoint proper_prefixes (p : resolved) : list resolved :=
  match p with
  | [] => []
  | x :: t => [] :: List.map (cons x) (proper_prefixes t)
  end.

(** [p.parents]: the nearest ancestor first. *)
Definition parents (p : resolved) : list resolved := rev (proper_prefixes p).

(** The machine the server runs on: the environment variable (or its
    default) behind [DEFAULT_WORKSPACE], [os.path.expanduser] on a first
    part that starts with a tilde, and [os.path.realpath], which follows
    the symbolic links of the machine and may raise. *)
Record host : Type := Host {
  DEFAULT_WORKSPACE : string;
  os_expanduser : string -> string;
  realpath : PurePath -> exn + resolved
}.

Definition result (A : Type) : Type := (exn + A)%type.

Definition rbind {A B} (r : result A) (k : A -> result B) : result B :=
  match r with
  | inl e => inl e
  | inr a => k a
  end.

Declare Scope result_scope.
Delimit Scope result_scope with result.
Notation "x <- m ; k" := (rbind m (fun x => k))
  (at level 20, m at level 100, k at level 200, only parsing) : result_scope.
Local Open Scope result_scope.

Section Paths.

Variable H : host.

(** [p.expanduser()] *)
Definition expanduser (p : PurePath) : result PurePath :=
  match anchored p, parts p with
  | false, first :: tail =>
      if String.prefix "~" first then
        let homedir := os_expanduser H first in
        if String.prefix "~" homedir
        then inl (Exn "RuntimeError" "Could not determine home directory.")
        else let h := parse homedir in inr (Path (anchored h) (parts h ++ tail))
      else inr p
  | _, _ => inr p
  end.

(** [p.resolve()] *)
Definition resolve (p : PurePath) : result resolved := realpath H p.

Definition _workspace_root : result resolved :=
  p <- expanduser (parse (DEFAULT_WORKSPACE H)) ;
  resolve p.

Definition _safe_path (relative_path : string) : result resolved :=
  root <- _workspace_root ;
  p <- expanduser (joinpath (Path true root) (parse relative_path)) ;
  target <- resolve p ;
  if negb (bool_decide (root ∈ parents target)) && negb (bool_decide (target = root))
  then inl (ValueError ("Path must be under workspace: " +:+ render root))
  else inr target.

End Paths.

(** A machine without symbolic links: [realpath] only folds [..], from
    the working directory [cwd] for a path that is not anchored. *)
Fixpoint normalize (acc : list string) (ps : list string) : resolved :=
  match ps with
  | [] => rev acc
  | p :: rest =>
      if String.eqb p ".." then normalize (tail acc) rest
      else normalize (p :: acc) rest
  end.

Definition lexical_realpath (cwd : resolved) (p : PurePath) : exn + resolved :=
  inr (normalize (if anchored p then [] else rev cwd) (parts p)).

Definition plain_host (workspace : string) : host :=
  Host workspace (fun s => if String.eqb s "~" then "/home/user" else s)
       (lexical_realpath ["srv"]).

(** ** Files *)

Inductive node : Type :=
| File (content : string)
| Dir.

(** The file system: what is stored at each absolute path. *)
Abbreviation filesystem := (gmap (list string) node).

Inductive stat_result : Type :=
| Found (n : node)
| ENOENT
| ENOTDIR.

(** What is at [p]; the root [/] is a directory on every system. *)
Definition entry (fs : filesystem) (p : resolved) : option node :=
  match p with
  | [] => Some Dir
  | _ => fs !! p
  end.

(** Path lookup as the kernel does it: every part but the last has to be
    a directory. *)
Fixpoint walk (fs : filesystem) (cur rest : list string) : stat_result :=
  match rest with
  | [] => match entry fs cur with
          | Some n => Found n
          | None => ENOENT
          end
  | c :: rest' =>
      match entry fs cur with
      | Some Dir => walk fs (cur ++ [c]) rest'
      | Some (File _) => ENOTDIR
      | None => ENOENT
      end
  end.

Definition stat (fs : filesystem) (p : resolved) : stat_result := walk fs [] p.

(** [p.exists()] *)
Definition exists_ (fs : filesystem) (p : resolved) : bool :=
  match stat fs p with Found _ => true | _ => false end.

(** [p.is_dir()] *)
Definition is_dir (fs : filesystem) (p : resolved) : bool :=
  match stat fs p with Found Dir => true | _ => false end.

(** A step on the file system: the new state, then an error or a value. *)
Definition IO (A : Type) : Type := filesystem -> filesystem * (exn + A).

Definition OSError (cls : string) (p : resolved) : exn := Exn cls (render p).

(** A new entry [n] at [p]: the parent has to be a directory. *)
Definition create_entry (p : resolved) (n : node) : IO unit := fun fs =>
  match stat fs (parent p) with
  | Found Dir => (<[p := n]> fs, inr tt)
  | Found (File _) | ENOTDIR => (fs, inl (OSError "NotADirectoryError" p))
  | ENOENT => (fs, inl (OSError "FileNotFoundError" p))
  end.

(** [os.mkdir(p)] *)
Definition os_mkdir (p : resolved) : IO unit := fun fs =>
  match stat fs p with
  | Found _ => (fs, inl (OSError "FileExistsError" p))
  | ENOTDIR => (fs, inl (OSError "NotADirectoryError" p))
  | ENOENT => create_entry p Dir fs
  end.

Definition is_FileNotFoundError (e : exn) : bool :=
  String.eqb (exn_class e) "FileNotFoundError".

(** [p.mkdir(parents=False, exist_ok=True)] *)
Definition mkdir_exist_ok (p : resolved) : IO unit := fun fs =>
  match os_mkdir p fs with
  | (fs', inr _) => (fs', inr tt)
  | (fs', inl e) =>
      if is_FileNotFoundError e then (fs', inl e)
      else if is_dir fs' p then (fs', inr tt) else (fs', inl e)
  end.

(** [p.mkdir(parents=True, exist_ok=True)], by recursion on the path read
    from its last part: on [FileNotFoundError] the parent is made first,
    then the directory itself without [parents]. *)
Fixpoint mkdir_rev (rp : list string) : IO unit := fun fs =>
  let p := rev rp in
  match os_mkdir p fs with
  | (fs', inr _) => (fs', inr tt)
  | (fs', inl e) =>
      if is_FileNotFoundError e then
        match rp with
        | [] => (fs', inl e)
        | _ :: rparent =>
            match mkdir_rev rparent fs' with
            | (fs1, inl e1) => (fs1, inl e1)
            | (fs1, inr _) => mkdir_exist_ok p fs1
            end
        end
      else if is_dir fs' p then (fs', inr tt) else (fs', inl e)
  end.

Definition mkdir_parents (p : resolved) : IO unit := mkdir_rev (rev p).

(** [open(p, "w")] or [open(p, "a")], then [write(content)] *)
Definition write (append : bool) (p : resolved) (content : string) : IO unit := fun fs =>
  match stat fs p with
  | Found Dir => (fs, inl (OSError "IsADirectoryError" p))
  | Found (File old) =>
      (<[p := File (if append then old +:+ content else content)]> fs, inr tt)
  | ENOTDIR => (fs, inl (OSError "NotADirectoryError" p))
  | ENOENT => create_entry p (File content) fs
  end.

Definition write_text (p : resolved) (content : string) : IO unit := write false p content.

(** [p.read_text()] *)
Definition read_text (p : resolved) : IO string := fun fs =>
  match stat fs p with
  | Found (File s) => (fs, inr s)
  | Found Dir => (fs, inl (OSError "IsADirectoryError" p))
  | ENOTDIR => (fs, inl (OSError "NotADirectoryError" p))
  | ENOENT => (fs, inl (OSError "FileNotFoundError" p))
  end.

(** [text[:n]] *)
Definition slice_to (n : Z) (text : string) : string :=
  let len := Z.of_nat (String.length text) in
  let stop := if (n <? 0)%Z then Z.max 0 (len + n) else Z.min n len in
  String.substring 0 (Z.to_nat stop) text.

Section Tools.

Variable H : host.

Definition already_exists (filename : string) : string :=
  "File already exists: " +:+ filename +:+ " (set overwrite=true to replace)".

(** The tools catch every exception and answer with its text. *)
Definition create_file (filename content : string) (overwrite : bool)
  : filesystem -> filesystem * string := fun fs =>
  match _safe_path H filename with
  | inl e => (fs, str_exn e)
  | inr path =>
      match mkdir_parents (parent path) fs with
      | (fs1, inl e) => (fs1, str_exn e)
      | (fs1, inr _) =>
          if exists_ fs1 path && negb overwrite
          then (fs1, already_exists filename)
          else
            match write_text path content fs1 with
            | (fs2, inl e) => (fs2, str_exn e)
            | (fs2, inr _) => (fs2, "Created: " +:+ filename)
            end
      end
  end.

Definition write_file (filename content : string) (append : bool)
  : filesystem -> filesystem * string := fun fs =>
  match _safe_path H filename with
  | inl e => (fs, str_exn e)
  | inr path =>
      match mkdir_parents (parent path) fs with
      | (fs1, inl e) => (fs1, str_exn e)
      | (fs1, inr _) =>
          match write append path content fs1 with
          | (fs2, inl e) => (fs2, str_exn e)
          | (fs2, inr _) => (fs2, "Wrote: " +:+ filename)
          end
      end
  end.

Definition read_file (filename : string) (max_chars : Z)
  : filesystem -> filesystem * string := fun fs =>
  match _safe_path H filename with
  | inl e => (fs, str_exn e)
  | inr path =>
      if negb (exists_ fs path) then (fs, "Not found: " +:+ filename)
      else
        match read_text path fs with
        | (fs1, inl e) => (fs1, str_exn e)
        | (fs1, inr text) =>
            if (max_chars <? Z.of_nat (String.length text))%Z
            then (fs1, slice_to max_chars text +:+ nl +:+ "... (truncated) ...")
            else (fs1, text)
        end
  end.

End Tools.

End Terminal.

(* ===================================================================== *)
(** * Sample collaborators *)
(* ===================================================================== *)

Module Samples.

Import Client.

(** An agent that answers every query with the query. *)
Definition echo (n : nat) (query : string) : exn + pyval := inr (PStr query).

(** An agent whose model is over its quota. *)
Definition rate_limited : exn := Exn "RateLimitError" "Error code: 429 - Rate limit reached".
Definition over_quota (n : nat) (query : string) : exn + pyval := inl rate_limited.

(** An agent that fails for another reason. *)
Definition broken_pipe : exn := Exn "BrokenPipeError" "[Errno 32] Broken pipe".
Definition broken (n : nat) (query : string) : exn + pyval := inl broken_pipe.

(** A message as LangChain returns it, and one object without content. *)
Definition ai_message : pyval :=
  PObj "AIMessage" (Some (PStr "hello")) "content='hello'" "AIMessage(content='hello')".
Definition opaque : pyval := PObj "Thread" None "<Thread>" "<Thread>".

Definition answer : pyval := PDict [(KStr "messages", PList [ai_message])].
Definition odd_answer : pyval := PDict [(KStr "messages", PList [ai_message; opaque])].

Definition helpful (n : nat) (query : string) : exn + pyval := inr answer.
Definition odd (n : nat) (query : string) : exn + pyval := inr odd_answer.

(** A machine without links whose workspace holds one file. *)
Definition machine : Terminal.host := Terminal.plain_host "/home/user/mcp/workspace".

Definition workspace : list string := ["home"; "user"; "mcp"; "workspace"].

Definition disk : Terminal.filesystem :=
  {[ ["home"] := Terminal.Dir;
     ["home"; "user"] := Terminal.Dir;
     ["home"; "user"; "mcp"] := Terminal.Dir;
     workspace := Terminal.Dir;
     workspace ++ ["notes.txt"] := Terminal.File "old" ]}.

End Samples.

(* ===================================================================== *)
(** * What the encoder can serialize *)
(* ===================================================================== *)

Module Serializable.

(** The keys [json.dumps] accepts. *)
Definition key_ok (k : pykey) : bool :=
  match k with
  | KOther _ _ => false
  | _ => true
  end.

(** Nowhere in the value an object without [content] or a key that JSON
    cannot use. *)
Fixpoint serializable (o : pyval) : bool :=
  match o with
  | PList l => forallb serializable l
  | PDict d => forallb (fun kv => key_ok (fst kv) && serializable (snd kv)) d
  | PObj _ (Some c) _ _ => serializable c
  | PObj _ None _ _ => false
  | _ => true
  end.

Fixpoint all_chars (p : ascii -> bool) (s : string) : bool :=
  match s with
  | EmptyString => true
  | String c t => p c && all_chars p t
  end.

(** The characters of an ASCII-only JSON text: the printable ones, and the
    newline of the indentation. *)
Definition json_char (c : ascii) : bool :=
  ((code c =? 10) || ((32 <=? code c) && (code c <=? 126)))%nat.

End Serializable.

(* ===================================================================== *)
(** * Stripped text *)
(* ===================================================================== *)

Module Trim.

(** No white space at either end. *)
Definition trimmed (s : string) : Prop := lstrip s = s /\ rstrip s = s.

End Trim.

(* ===================================================================== *)
(** * The input of an interactive session *)
(* ===================================================================== *)

Module Stdin.

(** The test of the loop on a line: [query.lower() == "quit"] after the
    strip. *)
Definition is_quit (line : string) : bool :=
  String.eqb (lower (strip line)) "quit".

(** The lines in front of the first quit line. *)
Fixpoint before_quit (stdin : list string) : list string :=
  match stdin with
  | [] => []
  | line :: rest => if is_quit line then [] else line :: before_quit rest
  end.

End Stdin.

(* ===================================================================== *)
(** * Relations between two states of the file system *)
(* ===================================================================== *)

Module Disk.

Import Terminal.

(** Everything that could be found before can be found after, unchanged. *)
Definition keeps (fs fs' : filesystem) : Prop :=
  forall q m, stat fs q = Found m -> stat fs' q = Found m.

(** The same, but for the entry at [p]. *)
Definition keeps_but (p : resolved) (fs fs' : filesystem) : Prop :=
  forall q m, q <> p -> stat fs q = Found m -> stat fs' q = Found m.

(** An error of the operating system on some path. *)
Definition os_error (e : exn) : Prop := exists cls p, e = OSError cls p.

(** The stored entries form a tree: each one sits in a directory that
    can be found. *)
Definition tree (fs : filesystem) : Prop :=
  forall q n, fs !! q = Some n -> q <> [] -> stat fs (parent q) = Found Dir.

Definition sits_in_dir (fs : filesystem) (qn : list string * node) : bool :=
  match fst qn with
  | [] => true
  | _ => is_dir fs (parent (fst qn))
  end.

(** No regular file at [p] or above it. *)
Definition no_file_on_way (fs : filesystem) (p : resolved) : Prop :=
  forall q c, q `prefix_of` p -> stat fs q <> Found (File c).

(** [fs'] is [fs] with some of the directories down to [p] added. *)
Definition adds_dirs (p : resolved) (fs fs' : filesystem) : Prop :=
  forall q, fs' !! q = fs !! q
            \/ (q `prefix_of` p /\ fs' !! q = Some Dir /\ fs !! q = None).

End Disk.

(* ===================================================================== *)
(** * The terminal server: run_command *)
(* ===================================================================== *)

Module Shell.

Import Terminal.

(** What [subprocess.run(..., capture_output=True, text=True)] returns. *)
Record CompletedProcess : Type := Completed { stdout : string; stderr : string }.

(** [a or b] on strings *)
Definition or_ (a b : string) : string := if truthy a then a else b.

Section Command.

Variable H : host.

(** The shell: what running [command] in the directory [cwd] ([None] is
    the directory of the server) gives, or the exception of a command
    that could not be started. *)
Variable subprocess_run : string -> option string -> exn + CompletedProcess.

(** [os.path.isdir(s)] *)
Definition os_path_isdir (fs : filesystem) (s : string) : bool :=
  match realpath H (parse s) with
  | inr p => is_dir fs p
  | inl _ => false
  end.

Definition run_command (command : string) (fs : filesystem) : string :=
  match subprocess_run command
          (if os_path_isdir fs (DEFAULT_WORKSPACE H)
           then Some (DEFAULT_WORKSPACE H) else None) with
  | inl e => str_exn e
  | inr result => strip (or_ (or_ (stdout result) (stderr result)) EmptyString)
  end.

End Command.

End Shell.

(* ===================================================================== *)
(** * Sample commands *)
(* ===================================================================== *)

Module ShellSamples.

Import Shell.

(** A command that writes a blank line to the standard output and its
    complaint to the error output. *)
Definition blank_then_error (command : string) (cwd : option string)
  : exn + CompletedProcess :=
  inr (Completed (" " +:+ nl) "ls: cannot access").

End ShellSamples.

(* ===================================================================== *)
(** * Properties of the text operations *)
(* ===================================================================== *)

Module TextFacts.

Lemma prefix_app (n b : string) : String.prefix n (n +:+ b) = true.
Proof. induction n as [|c n IH]; simpl; [by destruct b|]. by destruct (ascii_dec c c). Qed.

Lemma prefix_split (n h : string) :
  String.prefix n h = true -> exists b, h = n +:+ b.
Proof.
  revert h. induction n as [|c n IH]; intros h Hp; simpl in *.
  - by exists h.
  - destruct h as [|d h]; [done|].
    simpl in Hp. revert Hp. destruct (ascii_dec c d) as [->|]; [|done].
    intros Hp. destruct (IH _ Hp) as [b ->]. by exists b.
Qed.

Lemma contains_unfold (n h : string) :
  contains n h
  = String.prefix n h
    || match h with EmptyString => false | String _ t => contains n t end.
Proof. by destruct h. Qed.

(** [contains] is Python's [in]: the needle occurs somewhere in the text. *)
Lemma contains_spec (n h : string) :
  contains n h = true <-> exists a b, h = a +:+ n +:+ b.
Proof.
  split.
  - induction h as [|c h IH]; rewrite contains_unfold; intros Hc.
    + rewrite orb_false_r in Hc. destruct (prefix_split _ _ Hc) as [b Hb].
      by exists EmptyString, b.
    + apply orb_true_iff in Hc as [Hp|Hc].
      * destruct (prefix_split _ _ Hp) as [b Hb]. by exists EmptyString, b.
      * destruct (IH Hc) as (a & b & ->). by exists (String c a), b.
  - intros (a & b & ->). induction a as [|c a IH].
    + rewrite contains_unfold. change (EmptyString +:+ n +:+ b) with (n +:+ b).
      by rewrite prefix_app.
    + rewrite contains_unfold. change (String c a +:+ n +:+ b) with (String c (a +:+ n +:+ b)).
      cbv iota. rewrite IH. apply orb_true_r.
Qed.

Lemma truthy_false (s : string) : truthy s = false <-> s = EmptyString.
Proof. by destruct s. Qed.

End TextFacts.

(* ===================================================================== *)
(** * Properties of the encoder *)
(* ===================================================================== *)

Module JsonFacts.

Import Json.



Example default_opaque :
  default Samples.opaque
  = inl (TypeError "Object of type Thread is not JSON serializable").
Proof. reflexivity. Qed.

End JsonFacts.

(* ===================================================================== *)
(** * Properties of the session loop *)
(* ===================================================================== *)

Module ClientFacts.

Import Client.
Local Open Scope session_scope.
Local Arguments format_response : simpl never.

Lemma after_nil {A} (m : M A) : after [] m = m.
Proof. by destruct m. Qed.

Lemma after_after {A} (t1 t2 : list event) (m : M A) :
  after t1 (after t2 m) = after (t1 ++ t2) m.
Proof. unfold after. simpl. by rewrite app_assoc. Qed.

Lemma bind_emit {A} (ev : event) (k : M A) :
  (emit ev ;; k) = after [ev] k.
Proof. unfold bind, emit, after. by destruct k. Qed.

Lemma dispatches_app (t1 t2 : list event) :
  dispatches (t1 ++ t2) = dispatches t1 ++ dispatches t2.
Proof. apply omap_app. Qed.

Lemma printed_app (t1 t2 : list event) : printed (t1 ++ t2) = printed t1 ++ printed t2.
Proof. apply omap_app. Qed.

Lemma inputs_app (t1 t2 : list event) : inputs (t1 ++ t2) = inputs t1 ++ inputs t2.
Proof. apply omap_app. Qed.

Lemma format_response_total (response : pyval) :
  format_response response = ([], inr (rendering response)).
Proof.
  unfold format_response, rendering, try_except, lift, ret.
  by destruct (Json.dumps response).
Qed.

(** [is_rate_limit] in terms of occurrences of the three markers. *)
Lemma is_rate_limit_spec (msg : string) :
  is_rate_limit msg = true
  <-> (exists a b, msg = a +:+ "429" +:+ b)
      \/ (exists a b, lower msg = a +:+ "rate limit" +:+ b)
      \/ (exists a b, lower msg = a +:+ "quota" +:+ b).
Proof.
  unfold is_rate_limit. rewrite !orb_true_iff, !TextFacts.contains_spec. tauto.
Qed.

Section Loop.

Variable W : world.

Lemma chat_loop_cons (n : nat) (line : string) (rest : list string) :
  chat_loop W n (line :: rest)
  = (emit (Input prompt) ;;
     if String.eqb (lower (strip line)) "quit" then ret tt
     else
       r <- try_except
              (response <- agent_ainvoke W n (strip line) ; ret (Some response))
              (fun e =>
                 if is_rate_limit (str_exn e)
                 then print (advisory W) ;; ret None
                 else raise e) ;
       match r with
       | None => chat_loop W (S n) rest
       | Some response =>
           formatted <- format_response response ;
           print (nl +:+ "Response:") ;;
           print formatted ;;
           chat_loop W (S n) rest
       end).
Proof. reflexivity. Qed.

(** End of input: the loop says so and ends normally. *)
Lemma chat_loop_eof (n : nat) :
  chat_loop W n [] = ([Input prompt; Print (nl +:+ "EOF received. Exiting.")], inr tt).
Proof. reflexivity. Qed.

(** The quit sentinel, in any letter case: the loop ends normally. *)
Lemma chat_loop_quit (n : nat) (line : string) (rest : list string) :
  lower (strip line) = "quit" ->
  chat_loop W n (line :: rest) = ([Input prompt], inr tt).
Proof. intros Hq. rewrite chat_loop_cons, Hq. reflexivity. Qed.

Lemma chat_loop_response (n : nat) (line : string) (rest : list string) (response : pyval) :
  lower (strip line) <> "quit" ->
  ainvoke W n (strip line) = inr response ->
  chat_loop W n (line :: rest)
  = after [Input prompt; Invoke n (strip line);
           Print (nl +:+ "Response:"); Print (rendering response)]
          (chat_loop W (S n) rest).
Proof.
  intros Hq Ha. rewrite chat_loop_cons.
  apply String.eqb_neq in Hq. rewrite Hq.
  unfold agent_ainvoke. rewrite Ha.
  unfold bind, try_except, emit, ret, print, after. cbn [fst snd app].
  rewrite format_response_total. cbn [fst snd app].
  by destruct (chat_loop W (S n) rest).
Qed.

Lemma chat_loop_advisory (n : nat) (line : string) (rest : list string) (e : exn) :
  lower (strip line) <> "quit" ->
  ainvoke W n (strip line) = inl e ->
  is_rate_limit (str_exn e) = true ->
  chat_loop W n (line :: rest)
  = after [Input prompt; Invoke n (strip line); Print (advisory W)]
          (chat_loop W (S n) rest).
Proof.
  intros Hq Ha Hr. rewrite chat_loop_cons.
  apply String.eqb_neq in Hq. rewrite Hq.
  unfold agent_ainvoke. rewrite Ha.
  unfold bind, try_except, emit, ret, print, after. simpl. rewrite Hr. simpl.
  by destruct (chat_loop W (S n) rest).
Qed.

Lemma chat_loop_fatal (n : nat) (line : string) (rest : list string) (e : exn) :
  lower (strip line) <> "quit" ->
  ainvoke W n (strip line) = inl e ->
  is_rate_limit (str_exn e) = false ->
  chat_loop W n (line :: rest) = ([Input prompt; Invoke n (strip line)], inl e).
Proof.
  intros Hq Ha Hr. rewrite chat_loop_cons.
  apply String.eqb_neq in Hq. rewrite Hq.
  unfold agent_ainvoke. rewrite Ha.
  unfold bind, try_except, emit, ret, print, raise. simpl. by rewrite Hr.
Qed.

(** What the loop does with one line: it dispatches the stripped line
    unless that is the quit sentinel, whatever else the line is. *)
Lemma chat_loop_dispatches_line (n : nat) (line : string) (rest : list string) :
  exists tl,
    dispatches (trace (chat_loop W n (line :: rest)))
    = if String.eqb (lower (strip line)) "quit" then [] else strip line :: tl.
Proof.
  destruct (String.eqb_spec (lower (strip line)) "quit") as [Hq|Hq].
  - exists []. by rewrite chat_loop_quit.
  - destruct (ainvoke W n (strip line)) as [e|response] eqn:Ha.
    + destruct (is_rate_limit (str_exn e)) eqn:Hr.
      * eexists. rewrite (chat_loop_advisory _ _ _ _ Hq Ha Hr). reflexivity.
      * eexists. rewrite (chat_loop_fatal _ _ _ _ Hq Ha Hr). reflexivity.
    + eexists. rewrite (chat_loop_response _ _ _ _ Hq Ha). reflexivity.
Qed.

(** No event of the loop belongs to the context managers. *)
Lemma chat_loop_inner (n : nat) (stdin : list string) :
  Forall (fun ev => Session.is_lifecycle ev = false) (trace (chat_loop W n stdin)).
Proof.
  revert n. induction stdin as [|line rest IH]; intros n.
  - rewrite chat_loop_eof. repeat constructor.
  - destruct (String.eqb_spec (lower (strip line)) "quit") as [Hq|Hq].
    { rewrite chat_loop_quit by done. repeat constructor. }
    destruct (ainvoke W n (strip line)) as [e|response] eqn:Ha.
    + destruct (is_rate_limit (str_exn e)) eqn:Hr.
      * rewrite (chat_loop_advisory _ _ _ _ Hq Ha Hr). simpl.
        repeat (constructor; [done|]). apply IH.
      * rewrite (chat_loop_fatal _ _ _ _ Hq Ha Hr). repeat constructor.
    + rewrite (chat_loop_response _ _ _ _ Hq Ha). simpl.
      repeat (constructor; [done|]). apply IH.
Qed.

(** Interactive mode after a good start: the banner, the loop, and the
    two exits; the outcome is the outcome of the loop. *)
Lemma run_agent_interactive (stdin : list string) :
  startup_ok W ->
  run_agent W None stdin
  = (startup ++ Print banner :: trace (chat_loop W 0 stdin) ++ [SessionExit; StdioExit],
     snd (chat_loop W 0 stdin)).
Proof.
  intros (H1 & H2 & H3 & H4 & H5).
  unfold run_agent, session_body, async_with, step. rewrite H1, H2, H3, H4, H5.
  unfold bind, emit, print, trace. simpl.
  destruct (chat_loop W 0 stdin) as [t r]. simpl.
  by rewrite <- !app_assoc.
Qed.

(** One-shot mode after a good start, with a query that is not blank. *)
Lemma run_agent_once (o : string) (stdin : list string) :
  startup_ok W ->
  truthy (strip o) = true ->
  run_agent W (Some o) stdin
  = match ainvoke W 0 (strip o) with
    | inl e => (startup ++ [Invoke 0 (strip o); SessionExit; StdioExit], inl e)
    | inr response =>
        (startup ++ [Invoke 0 (strip o); Print (rendering response); SessionExit; StdioExit],
         inr tt)
    end.
Proof.
  intros (H1 & H2 & H3 & H4 & H5) Ht.
  unfold run_agent, session_body, async_with, step. rewrite H1, H2, H3, H4, H5, Ht.
  unfold agent_ainvoke. destruct (ainvoke W 0 (strip o)) as [e|response]; [done|].
  unfold bind, emit, ret, print. cbn [fst snd app].
  rewrite format_response_total. reflexivity.
Qed.

(** One-shot mode after a good start, with a blank query. *)
Lemma run_agent_once_blank (o : string) (stdin : list string) :
  startup_ok W ->
  strip o = EmptyString ->
  run_agent W (Some o) stdin = (startup ++ [SessionExit; StdioExit], inr tt).
Proof.
  intros (H1 & H2 & H3 & H4 & H5) Ht.
  unfold run_agent, session_body, async_with, step. rewrite H1, H2, H3, H4, H5, Ht.
  reflexivity.
Qed.

End Loop.

End ClientFacts.

(* ===================================================================== *)
(** * The session loop against its specification *)
(* ===================================================================== *)

Module SessionLoop.

Import Client ClientFacts.

(** C1: in interactive mode, when the agent raises on a query, the text of
    the error decides.  With one of the markers ([429], or [rate limit] or
    [quota] in any letter case) the loop prints the advisory and goes on
    with the next line of input.  Without a marker the error leaves the
    loop, and a run that reached this query ends with status 1. *)
Theorem interactive_error_classification
    (W : world) (n : nat) (line : string) (rest : list string) (e : exn) :
  lower (strip line) <> "quit" ->
  ainvoke W n (strip line) = inl e ->
  let msg := str_exn e in
  if contains "429" msg || contains "rate limit" (lower msg) || contains "quota" (lower msg)
  then
    chat_loop W n (line :: rest)
    = after [Input prompt; Invoke n (strip line); Print (advisory W)]
            (chat_loop W (S n) rest)
  else
    chat_loop W n (line :: rest) = ([Input prompt; Invoke n (strip line)], inl e)
    /\ forall stdin0 t0,
         startup_ok W ->
         chat_loop W 0 stdin0 = after t0 (chat_loop W n (line :: rest)) ->
         snd (run_agent W None stdin0) = inl e
         /\ exit_status (run_agent W None stdin0) = 1%Z.
Proof.
  intros Hq Ha msg.
  destruct (contains "429" msg || contains "rate limit" (lower msg)
            || contains "quota" (lower msg)) eqn:Hr.
  - exact (chat_loop_advisory W n line rest e Hq Ha Hr).
  - assert (Hf := chat_loop_fatal W n line rest e Hq Ha Hr).
    split; [done|]. intros stdin0 t0 Hok Hreach.
    rewrite (run_agent_interactive W stdin0 Hok).
    unfold exit_status. simpl. by rewrite Hreach, Hf.
Qed.

Lemma interactive_error_classification_witness :
  chat_loop (started Samples.over_quota) 0 ["hi"; "quit"]
  = after [Input prompt; Invoke 0 "hi"; Print (advisory (started Samples.over_quota))]
          (chat_loop (started Samples.over_quota) 1 ["quit"])
  /\ exit_status (run_agent (started Samples.broken) None ["hi"; "quit"]) = 1%Z.
Proof.
  split.
  - apply (interactive_error_classification
             (started Samples.over_quota) 0 "hi" ["quit"] Samples.rate_limited).
    + vm_compute. discriminate.
    + reflexivity.
  - refine (proj2 (proj2 (interactive_error_classification
                     (started Samples.broken) 0 "hi" ["quit"] Samples.broken_pipe _ _)
                     ["hi"; "quit"] [] _ _)).
    + vm_compute. discriminate.
    + reflexivity.
    + by repeat split.
    + reflexivity.
Defined.

(** C2: one-shot mode has no handler around the call of the agent.  A
    rate-limit error raised for the single query leaves [run_agent]: no
    advisory is printed and the process ends with status 1. *)
Theorem oneshot_rate_limit_uncaught :
  let r := run_agent (started Samples.over_quota) (Some "hello") [] in
  is_rate_limit (str_exn Samples.rate_limited) = true
  /\ r = (startup ++ [Invoke 0 "hello"; SessionExit; StdioExit], inl Samples.rate_limited)
  /\ printed (trace r) = []
  /\ exit_status r = 1%Z.
Proof. vm_compute. repeat split. Qed.

(** C3: a blank line in interactive mode is dispatched: the agent is
    called with the empty query. *)
Theorem interactive_blank_line_dispatched :
  dispatches (trace (run_agent (started Samples.echo) None ["   "; "quit"]))
  = [EmptyString].
Proof. vm_compute. reflexivity. Qed.






(** C10: in one-shot mode a query that is blank after stripping reaches
    nobody: the agent is not called, nothing is printed, the prompt is not
    read; after a good start the run is the start-up and the two exits,
    and the process ends with status 0. *)
Theorem oneshot_blank_query_skipped (W : world) (o : string) (stdin : list string) :
  strip o = EmptyString ->
  let r := run_agent W (Some o) stdin in
  dispatches (trace r) = []
  /\ printed (trace r) = []
  /\ inputs (trace r) = []
  /\ (startup_ok W ->
      r = (startup ++ [SessionExit; StdioExit], inr tt) /\ exit_status r = 0%Z).
Proof.
  intros Hs r. subst r.
  assert (Hall : dispatches (trace (run_agent W (Some o) stdin)) = []
                 /\ printed (trace (run_agent W (Some o) stdin)) = []
                 /\ inputs (trace (run_agent W (Some o) stdin)) = []).
  { unfold run_agent, session_body, async_with, step. rewrite Hs.
    destruct (spawn W), (session_enter W), (initialize W),
      (load_mcp_tools W), (create_react_agent W); by vm_compute. }
  destruct Hall as (Hd & Hp & Hi). repeat split; try done.
  all: by rewrite (run_agent_once_blank W o stdin).
Qed.

Lemma oneshot_blank_query_skipped_witness :
  run_agent (started Samples.echo) (Some "   ") []
  = (startup ++ [SessionExit; StdioExit], inr tt)
  /\ exit_status (run_agent (started Samples.echo) (Some "   ") []) = 0%Z.
Proof.
  apply (oneshot_blank_query_skipped (started Samples.echo) "   " []).
  - reflexivity.
  - by repeat split.
Defined.

End SessionLoop.

(* ===================================================================== *)
(** * The session is closed on every way out *)
(* ===================================================================== *)

Module SessionFacts.

Import Client ClientFacts Session.

Lemma close_idempotent (s : session) : close (close s) = close s.
Proof. reflexivity. Qed.

Lemma replay_app (t1 t2 : list event) :
  replay (t1 ++ t2) = fold_left observe t2 (replay t1).
Proof. apply fold_left_app. Qed.

(** Whatever happened before, the exit of [stdio_client] leaves the
    session closed, the child gone and the pipes closed. *)
Lemma replay_closed (t : list event) :
  replay (t ++ [StdioExit]) = Session Closed false false.
Proof. by rewrite replay_app. Qed.

Lemma session_body_inner (W : world) (once : option string) (stdin : list string) :
  Forall (fun ev => is_lifecycle ev = false) (trace (session_body W once stdin)).
Proof.
  unfold session_body, step.
  destruct (initialize W); [repeat constructor|].
  destruct (load_mcp_tools W); [repeat constructor|].
  destruct (create_react_agent W); [repeat constructor|].
  destruct once as [o|].
  - destruct (truthy (strip o)); [|repeat constructor].
    unfold agent_ainvoke. destruct (ainvoke W 0 (strip o)) as [e|response].
    + repeat constructor.
    + unfold bind, emit, ret, print. cbn [fst snd app].
      rewrite format_response_total. repeat constructor.
  - pose proof (chat_loop_inner W 0 stdin) as Hl.
    unfold bind, emit, print, trace in *. cbn [fst snd app].
    destruct (chat_loop W 0 stdin) as [t r]. simpl in *.
    repeat (constructor; [done|]). exact Hl.
Qed.

(** The shape of every run: nothing when the child could not be spawned;
    otherwise the body between the entry and the exit of [stdio_client],
    and inside it, once the session was entered, the rest between the
    entry and the exit of [ClientSession]. *)
Lemma run_agent_shape (W : world) (once : option string) (stdin : list string) :
  match spawn W with
  | Some _ => trace (run_agent W once stdin) = [StdioEnter false]
  | None =>
      match session_enter W with
      | Some _ =>
          trace (run_agent W once stdin) = [StdioEnter true; SessionEnter false; StdioExit]
      | None =>
          trace (run_agent W once stdin)
          = StdioEnter true
            :: (SessionEnter true :: trace (session_body W once stdin) ++ [SessionExit])
            ++ [StdioExit]
      end
  end.
Proof.
  unfold run_agent, async_with, step.
  destruct (spawn W); [done|]. destruct (session_enter W); [done|].
  unfold emit, trace. by destruct (session_body W once stdin).
Qed.

(** C8: closing is idempotent, and it happens on every way out of
    [run_agent], whatever the mode, the input and the collaborators do
    (return of the one-shot branch, quit, end of input, an error that
    leaves the loop, a failure during start-up).  If the child was spawned
    the run ends with the exit of [stdio_client], which occurs exactly
    once; if the session was entered its exit comes just before, once.
    In every case no child is left alive and no pipe is left open. *)
Theorem session_closed_on_every_exit_path
    (W : world) (once : option string) (stdin : list string) :
  let t := trace (run_agent W once stdin) in
  (forall s, close (close s) = close s)
  /\ child_alive (replay t) = false
  /\ channel_open (replay t) = false
  /\ (spawn W = None ->
      replay t = close (replay (removelast t))
      /\ state (replay t) = Closed
      /\ exists body,
           t = StdioEnter true :: body ++ [StdioExit]
           /\ Forall (fun ev => ev <> StdioExit /\ ev <> StdioEnter true) body
           /\ (session_enter W = None ->
               exists inner,
                 body = SessionEnter true :: inner ++ [SessionExit]
                 /\ Forall (fun ev => is_lifecycle ev = false) inner))
  /\ (forall e, spawn W = Some e -> t = [StdioEnter false]).
Proof.
  intros t. subst t.
  pose proof (run_agent_shape W once stdin) as Hshape.
  pose proof (session_body_inner W once stdin) as Hinner.
  split; [apply close_idempotent|].
  destruct (spawn W) as [e|].
  { rewrite Hshape. repeat split; done. }
  assert (Hbody : exists body,
             trace (run_agent W once stdin) = StdioEnter true :: body ++ [StdioExit]
             /\ Forall (fun ev => ev <> StdioExit /\ ev <> StdioEnter true) body
             /\ (session_enter W = None ->
                 exists inner,
                   body = SessionEnter true :: inner ++ [SessionExit]
                   /\ Forall (fun ev => is_lifecycle ev = false) inner)).
  { destruct (session_enter W) as [e|].
    - exists [SessionEnter false]. rewrite Hshape. repeat split; try done.
      repeat constructor; done.
    - eexists. split; [exact Hshape|]. split.
      + constructor; [done|]. apply Forall_app. split; [|repeat constructor; done].
        eapply Forall_impl; [exact Hinner|]. intros ev Hev.
        split; intros ->; done.
      + intros _. eexists. split; [reflexivity|exact Hinner]. }
  destruct Hbody as (body & Ht & Hb & Hs).
  assert (Hr : replay (trace (run_agent W once stdin)) = Session Closed false false).
  { rewrite Ht. apply (replay_closed (StdioEnter true :: body)). }
  rewrite Hr. repeat split; try done.
  exists body. repeat split; done.
Qed.

Lemma session_closed_on_every_exit_path_witness :
  replay (trace (run_agent (started Samples.broken) None ["hi"])) = Session Closed false false
  /\ exists body,
       trace (run_agent (started Samples.broken) None ["hi"])
       = StdioEnter true :: body ++ [StdioExit]
       /\ Forall (fun ev => ev <> StdioExit /\ ev <> StdioEnter true) body.
Proof.
  destruct (session_closed_on_every_exit_path (started Samples.broken) None ["hi"])
    as (_ & _ & _ & Hsp & _).
  destruct (Hsp eq_refl) as (Hc & _ & body & Ht & Hb & _).
  split; [exact Hc|]. exists body. by split.
Defined.

(** The ways out, one run each: return of the one-shot branch, quit, end
    of input, an error that leaves the loop, an error of the one-shot
    call, and a failed [initialize]. *)
Example exit_paths :
  let closed r := last (trace r) = Some StdioExit in
  closed (run_agent (started Samples.helpful) (Some "hi") [])
  /\ closed (run_agent (started Samples.helpful) None ["hi"; "quit"])
  /\ closed (run_agent (started Samples.helpful) None ["hi"])
  /\ closed (run_agent (started Samples.broken) None ["hi"])
  /\ closed (run_agent (started Samples.broken) (Some "hi") [])
  /\ closed (run_agent (World None None (Some Samples.broken_pipe) None None
                          Samples.echo "m") None ["hi"]).
Proof. vm_compute. repeat split. Qed.

End SessionFacts.

(* ===================================================================== *)
(** * The terminal server against its specification *)
(* ===================================================================== *)

Module TerminalFacts.

Import Terminal.

Lemma elem_of_proper_prefixes (root target : list string) :
  root ∈ proper_prefixes target <-> exists rest, rest <> [] /\ target = root ++ rest.
Proof.
  revert root. induction target as [|x t IH]; intros root; simpl.
  - split; [by intros ?%elem_of_nil|].
    intros (rest & Hne & Heq). symmetry in Heq.
    apply app_eq_nil in Heq as [_ ->]. done.
  - rewrite elem_of_cons, list_elem_of_fmap. split.
    + intros [->|(r & -> & Hr)].
      * by exists (x :: t).
      * apply IH in Hr as (rest & Hne & ->). by exists rest.
    + intros (rest & Hne & Heq). destruct root as [|y r]; [by left|right].
      simpl in Heq. injection Heq as -> ->.
      exists r. split; [done|]. apply IH. by exists rest.
Qed.

(** [root in target.parents]: the target lies strictly under the root. *)
Lemma elem_of_parents (root target : list string) :
  root ∈ parents target <-> exists rest, rest <> [] /\ target = root ++ rest.
Proof.
  unfold parents. rewrite <- elem_of_proper_prefixes, !list_elem_of_In.
  symmetry. apply in_rev.
Qed.


(** Traversal out of the workspace, an absolute path, and a link that
    leads out are refused; paths that stay inside are resolved. *)
Example safe_path_samples :
  let H := plain_host "/home/user/mcp/workspace" in
  let refused := inl (ValueError "Path must be under workspace: /home/user/mcp/workspace") in
  _safe_path H "../../secrets.txt" = refused
  /\ _safe_path H "/etc/passwd" = refused
  /\ _safe_path H "notes/../../workspace2/x" = refused
  /\ _safe_path H "notes/./a/../b.txt" = inr ["home"; "user"; "mcp"; "workspace"; "notes"; "b.txt"]
  /\ _safe_path H EmptyString = inr ["home"; "user"; "mcp"; "workspace"]
  /\ _safe_path (Host "/srv/ws" (fun s => s)
                   (fun p => if bool_decide (parts p = ["srv"; "ws"; "out"])
                             then inr ["etc"] else inr (parts p)))
                "out"
     = inl (ValueError "Path must be under workspace: /srv/ws").
Proof. vm_compute. repeat split. Qed.

Lemma walk_snoc (fs : filesystem) (cur rest : list string) (c : string) (n : node) :
  walk fs cur (rest ++ [c]) = Found n -> walk fs cur rest = Found Dir.
Proof.
  revert cur. induction rest as [|x r IH]; intros cur; simpl.
  - by destruct (entry fs cur) as [[|]|].
  - destruct (entry fs cur) as [[|]|]; try done. apply IH.
Qed.

(** What exists has a directory as its parent. *)
Lemma stat_parent (fs : filesystem) (p : list string) (n : node) :
  stat fs p = Found n -> stat fs (parent p) = Found Dir.
Proof.
  unfold stat, parent. destruct p as [|x t] using rev_ind; [done|].
  rewrite removelast_last. apply walk_snoc.
Qed.

Lemma mkdir_rev_unfold (rp : list string) (fs : filesystem) :
  mkdir_rev rp fs
  = match os_mkdir (rev rp) fs with
    | (fs', inr _) => (fs', inr tt)
    | (fs', inl e) =>
        if is_FileNotFoundError e then
          match rp with
          | [] => (fs', inl e)
          | _ :: rparent =>
              match mkdir_rev rparent fs' with
              | (fs1, inl e1) => (fs1, inl e1)
              | (fs1, inr _) => mkdir_exist_ok (rev rp) fs1
              end
          end
        else if is_dir fs' (rev rp) then (fs', inr tt) else (fs', inl e)
    end.
Proof. by destruct rp. Qed.

(** [mkdir(parents=True, exist_ok=True)] on a directory changes nothing. *)
Lemma mkdir_parents_existing (fs : filesystem) (p : list string) :
  stat fs p = Found Dir -> mkdir_parents p fs = (fs, inr tt).
Proof.
  intros Hs. unfold mkdir_parents. rewrite mkdir_rev_unfold, rev_involutive.
  unfold os_mkdir, is_dir. rewrite Hs.
  change (is_FileNotFoundError (OSError "FileExistsError" p)) with false.
  by rewrite Hs.
Qed.

(** C9: when the resolved target exists and [overwrite] is false,
    [create_file] answers that the file exists and the file system is
    what it was: no content is rewritten and nothing is created. *)
Theorem create_file_keeps_existing
    (H : host) (fs : filesystem) (filename content : string)
    (path : list string) (n : node) :
  _safe_path H filename = inr path ->
  stat fs path = Found n ->
  create_file H filename content false fs = (fs, already_exists filename).
Proof.
  intros Hsafe Hstat. unfold create_file. rewrite Hsafe.
  rewrite (mkdir_parents_existing fs (parent path) (stat_parent _ _ _ Hstat)).
  unfold exists_. by rewrite Hstat.
Qed.

Lemma create_file_keeps_existing_witness :
  create_file Samples.machine "notes.txt" "new" false Samples.disk
  = (Samples.disk, "File already exists: notes.txt (set overwrite=true to replace)")
  /\ stat Samples.disk (Samples.workspace ++ ["notes.txt"]) = Found (File "old").
Proof.
  split.
  - apply (create_file_keeps_existing Samples.machine Samples.disk "notes.txt" "new"
             (Samples.workspace ++ ["notes.txt"]) (File "old")).
    + reflexivity.
    + vm_compute. reflexivity.
  - vm_compute. reflexivity.
Defined.

(** With [overwrite] the content is replaced, and a new name is created. *)
Example create_file_samples :
  let after_ := create_file Samples.machine "notes.txt" "new" true Samples.disk in
  after_.2 = "Created: notes.txt"
  /\ stat after_.1 (Samples.workspace ++ ["notes.txt"]) = Found (File "new")
  /\ (create_file Samples.machine "a/b.txt" "x" false Samples.disk).2 = "Created: a/b.txt"
  /\ stat (create_file Samples.machine "a/b.txt" "x" false Samples.disk).1
          (Samples.workspace ++ ["a"; "b.txt"]) = Found (File "x").
Proof. vm_compute. repeat split. Qed.

End TerminalFacts.

(* ===================================================================== *)
(** * More on strip *)
(* ===================================================================== *)

Module StripFacts.

Import Trim.

Lemma rstrip_cons (c : ascii) (t : string) :
  is_space c = false -> rstrip (String c t) = String c (rstrip t).
Proof. intros Hc. simpl. rewrite Hc. by destruct (rstrip t). Qed.

Lemma rstrip_idempotent (s : string) : rstrip (rstrip s) = rstrip s.
Proof.
  induction s as [|c t IH]; [done|]. simpl.
  destruct (rstrip t) as [|d r] eqn:Hr.
  - destruct (is_space c) eqn:Hc; [done|]. simpl. by rewrite Hc.
  - change (rstrip (String c (String d r)))
      with (match rstrip (String d r) with
            | EmptyString => if is_space c then EmptyString else String c EmptyString
            | r' => String c r'
            end).
    by rewrite IH.
Qed.

(** What [lstrip] leaves is empty or starts with a character that is not
    white space. *)
Lemma lstrip_head (s : string) :
  lstrip s = EmptyString
  \/ exists c t, lstrip s = String c t /\ is_space c = false.
Proof.
  induction s as [|c t IH]; [by left|]. simpl.
  destruct (is_space c) eqn:Hc; [done|]. right. by exists c, t.
Qed.

(** [strip] leaves no white space at either end. *)
Lemma strip_trimmed (s : string) : trimmed (strip s).
Proof.
  unfold trimmed, strip. destruct (lstrip_head s) as [->|(c & t & -> & Hc)]; [done|].
  rewrite (rstrip_cons c t Hc). split.
  - simpl. by rewrite Hc.
  - by rewrite (rstrip_cons c _ Hc), rstrip_idempotent.
Qed.

End StripFacts.

(* ===================================================================== *)
(** * More on the encoder *)
(* ===================================================================== *)

Module JsonMore.

Import Json Serializable.

(** Induction on values, through the lists, dicts and objects. *)
Lemma pyval_nested_ind (P : pyval -> Prop) :
  P PNone ->
  (forall b, P (PBool b)) ->
  (forall z, P (PInt z)) ->
  (forall s, P (PStr s)) ->
  (forall l, Forall P l -> P (PList l)) ->
  (forall d, Forall (fun kv => P (snd kv)) d -> P (PDict d)) ->
  (forall cls s r, P (PObj cls None s r)) ->
  (forall cls c s r, P c -> P (PObj cls (Some c) s r)) ->
  forall o, P o.
Proof.
  intros HN HB HI HS HL HD HO HC. fix IH 1. intros [ | b | z | s | l | d | cls [c|] s r].
  - exact HN.
  - apply HB.
  - apply HI.
  - apply HS.
  - apply HL. induction l as [|x l IHl]; constructor; [apply IH|exact IHl].
  - apply HD. induction d as [|[k v] d IHd]; constructor; [apply IH|exact IHd].
  - apply HC, IH.
  - apply HO.
Qed.

Lemma encode_key_ok (k : pykey) :
  match encode_key k with
  | inr _ => key_ok k = true
  | inl e => key_ok k = false /\ exn_class e = "TypeError"
  end.
Proof. by destruct k as [| |[]| |]. Qed.

(** At every nesting level: a text when the value is serializable, a
    [TypeError] when it is not. *)
Lemma iterencode_serializable (o : pyval) :
  forall lvl,
    match iterencode lvl o with
    | inr _ => serializable o = true
    | inl e => serializable o = false /\ exn_class e = "TypeError"
    end.
Proof.
  induction o as [ | b | z | s | l IH | d IH | cls s r | cls c s r IH]
    using pyval_nested_ind; intros lvl; try done.
  - by destruct b.
  - simpl.
    set (items := (fix items (l0 : list pyval) {struct l0} : exn + list string := _)).
    assert (Hitems : match items l with
                     | inr _ => forallb serializable l = true
                     | inl e => forallb serializable l = false /\ exn_class e = "TypeError"
                     end).
    { induction IH as [|x l Hx _ IHl]; [done|]. simpl.
      specialize (Hx (S lvl)). destruct (iterencode (S lvl) x) as [e|sx].
      - destruct Hx as [-> ?]. done.
      - rewrite Hx. simpl. destruct (items l) as [e|rest]; [|done].
        destruct IHl as [-> ?]. done. }
    destruct (items l); done.
  - simpl.
    set (items := (fix items (d0 : list (pykey * pyval)) {struct d0} : exn + list string := _)).
    assert (Hitems : match items d with
                     | inr _ => forallb (fun kv => key_ok (fst kv) && serializable (snd kv)) d = true
                     | inl e => forallb (fun kv => key_ok (fst kv) && serializable (snd kv)) d = false
                                /\ exn_class e = "TypeError"
                     end).
    { induction IH as [|[k v] d Hv _ IHd]; [done|]. simpl in *.
      pose proof (encode_key_ok k) as Hk. destruct (encode_key k) as [e|sk].
      - destruct Hk as [-> ?]. done.
      - rewrite Hk. simpl.
        specialize (Hv (S lvl)). destruct (iterencode (S lvl) v) as [e|sv].
        + destruct Hv as [-> ?]. done.
        + rewrite Hv. simpl. destruct (items d) as [e|rest]; [|done].
          destruct IHd as [-> ?]. done. }
    destruct (items d); done.
  - simpl. specialize (IH (S lvl)). by destruct (iterencode (S lvl) c).
Qed.



Lemma all_chars_app (p : ascii -> bool) (a b : string) :
  all_chars p (a +:+ b) = all_chars p a && all_chars p b.
Proof. induction a as [|c a IH]; simpl; [done|]. by rewrite IH, andb_assoc. Qed.

Lemma escape_char_ascii (c : ascii) : all_chars json_char (escape_char c) = true.
Proof. destruct c as [[|] [|] [|] [|] [|] [|] [|] [|]]; vm_compute; reflexivity. Qed.

Lemma encode_basestring_ascii_clean (s : string) :
  all_chars json_char (encode_basestring_ascii s) = true.
Proof.
  unfold encode_basestring_ascii. rewrite !all_chars_app.
  assert (all_chars json_char (concat_map escape_char s) = true) as ->; [|done].
  induction s as [|c s IH]; simpl; [done|].
  by rewrite all_chars_app, escape_char_ascii, IH.
Qed.

Lemma string_of_uint_ascii (d : Decimal.uint) :
  all_chars json_char (NilEmpty.string_of_uint d) = true.
Proof.
  induction d as [|d IH|d IH|d IH|d IH|d IH|d IH|d IH|d IH|d IH|d IH];
    cbn [NilEmpty.string_of_uint all_chars]; [done|..]; rewrite IH; reflexivity.
Qed.

Lemma int_repr_ascii (z : Z) : all_chars json_char (int_repr z) = true.
Proof.
  unfold int_repr, NilZero.string_of_int, NilZero.string_of_uint.
  destruct (Z.to_int z) as [d|d]; destruct d; simpl; try done.
  all: apply string_of_uint_ascii.
Qed.

Lemma spaces_ascii (n : nat) : all_chars json_char (spaces n) = true.
Proof. induction n as [|k IH]; [done|]. cbn [spaces all_chars]. by rewrite IH. Qed.

Lemma newline_indent_ascii (lvl : nat) : all_chars json_char (newline_indent lvl) = true.
Proof. unfold newline_indent. by rewrite all_chars_app, spaces_ascii. Qed.

Lemma join_ascii (sep : string) (items : list string) :
  all_chars json_char sep = true ->
  Forall (fun s => all_chars json_char s = true) items ->
  all_chars json_char (join sep items) = true.
Proof.
  intros Hsep Hall. induction Hall as [|x l Hx Hl IH]; [done|].
  destruct l as [|y l]; [done|].
  change (join sep (x :: y :: l)) with (x +:+ sep +:+ join sep (y :: l)).
  by rewrite !all_chars_app, Hx, Hsep, IH.
Qed.

Lemma bracket_ascii (op cl : string) (lvl : nat) (items : list string) :
  all_chars json_char op = true ->
  all_chars json_char cl = true ->
  Forall (fun s => all_chars json_char s = true) items ->
  all_chars json_char (bracket op cl lvl items) = true.
Proof.
  intros Hop Hcl Hall. unfold bracket. destruct items as [|x l].
  - by rewrite all_chars_app, Hop, Hcl.
  - rewrite !all_chars_app, Hop, Hcl, !newline_indent_ascii.
    rewrite join_ascii; [done| |done].
    by rewrite all_chars_app, newline_indent_ascii.
Qed.

Lemma dict_item_ascii (k v : string) :
  all_chars json_char k = true -> all_chars json_char v = true ->
  all_chars json_char (dict_item k v) = true.
Proof. intros Hk Hv. unfold dict_item. by rewrite !all_chars_app, Hk, Hv. Qed.

Lemma encode_key_ascii (k : pykey) (sk : string) :
  encode_key k = inr sk -> all_chars json_char sk = true.
Proof.
  destruct k as [s|z|[]| |]; simpl; intros [= <-];
    apply encode_basestring_ascii_clean.
Qed.

(** X2: whatever characters a response holds, the JSON text printed for
    it is plain ASCII: printable characters and the newlines of the
    indentation, nothing else. *)
Theorem dumps_ascii_only (o : pyval) (lvl : nat) (text : string) :
  iterencode lvl o = inr text -> all_chars json_char text = true.
Proof.
  revert lvl text.
  induction o as [ | b | z | s | l IH | d IH | cls s r | cls c s r IH]
    using pyval_nested_ind; intros lvl text; simpl.
  - by intros [= <-].
  - destruct b; by intros [= <-].
  - intros [= <-]. apply int_repr_ascii.
  - intros [= <-]. apply encode_basestring_ascii_clean.
  - set (items := (fix items (l0 : list pyval) {struct l0} : exn + list string := _)).
    assert (Hitems : forall ss, items l = inr ss ->
                       Forall (fun s => all_chars json_char s = true) ss).
    { induction IH as [|x l Hx _ IHl]; simpl; [by intros ss [= <-]|].
      intros ss. destruct (iterencode (S lvl) x) as [e|sx] eqn:Ex; [done|].
      destruct (items l) as [e|rest]; [done|]. intros [= <-].
      constructor; [by eapply Hx|by apply IHl]. }
    destruct (items l) as [e|ss]; [done|]. intros [= <-].
    apply bracket_ascii; [done|done|by apply Hitems].
  - set (items := (fix items (d0 : list (pykey * pyval)) {struct d0} : exn + list string := _)).
    assert (Hitems : forall ss, items d = inr ss ->
                       Forall (fun s => all_chars json_char s = true) ss).
    { induction IH as [|[k v] d Hv _ IHd]; simpl; [by intros ss [= <-]|].
      intros ss. destruct (encode_key k) as [e|sk] eqn:Ek; [done|].
      destruct (iterencode (S lvl) v) as [e|sv] eqn:Ev; [done|].
      destruct (items d) as [e|rest]; [done|]. intros [= <-].
      constructor; [|by apply IHd].
      apply dict_item_ascii; [by eapply encode_key_ascii|by eapply Hv]. }
    destruct (items d) as [e|ss]; [done|]. intros [= <-].
    apply bracket_ascii; [done|done|by apply Hitems].
  - done.
  - destruct (iterencode (S lvl) c) as [e|sc] eqn:Ec; [done|]. intros [= <-].
    apply (bracket_ascii "{" "}" lvl
             [dict_item (encode_basestring_ascii "type") (encode_basestring_ascii cls);
              dict_item (encode_basestring_ascii "content") sc]); [done|done|].
    repeat constructor.
    + apply dict_item_ascii; apply encode_basestring_ascii_clean.
    + apply dict_item_ascii; [apply encode_basestring_ascii_clean|by eapply IH].
Qed.

Lemma dumps_ascii_only_witness :
  all_chars json_char (Client.rendering Samples.answer) = true.
Proof. apply (dumps_ascii_only Samples.answer 0). reflexivity. Defined.

End JsonMore.

(* ===================================================================== *)
(** * More on the session loop *)
(* ===================================================================== *)

Module LoopMore.

Import Client ClientFacts Stdin Trim StripFacts.

Lemma is_quit_true (line : string) : is_quit line = true <-> lower (strip line) = "quit".
Proof. apply String.eqb_eq. Qed.

Lemma is_quit_false (line : string) : is_quit line = false <-> lower (strip line) <> "quit".
Proof. apply String.eqb_neq. Qed.

(** One turn of the loop on a line that is not the sentinel, by what the
    agent does. *)
Lemma chat_loop_turn (W : world) (n : nat) (line : string) (rest : list string) :
  is_quit line = false ->
  match ainvoke W n (strip line) with
  | inr response =>
      chat_loop W n (line :: rest)
      = after [Input prompt; Invoke n (strip line);
               Print (nl +:+ "Response:"); Print (rendering response)]
              (chat_loop W (S n) rest)
  | inl e =>
      if is_rate_limit (str_exn e)
      then chat_loop W n (line :: rest)
           = after [Input prompt; Invoke n (strip line); Print (advisory W)]
                   (chat_loop W (S n) rest)
      else chat_loop W n (line :: rest) = ([Input prompt; Invoke n (strip line)], inl e)
  end.
Proof.
  intros Hq%is_quit_false.
  destruct (ainvoke W n (strip line)) as [e|response] eqn:Ha.
  - destruct (is_rate_limit (str_exn e)) eqn:Hr.
    + exact (chat_loop_advisory W n line rest e Hq Ha Hr).
    + exact (chat_loop_fatal W n line rest e Hq Ha Hr).
  - exact (chat_loop_response W n line rest response Hq Ha).
Qed.



(** X4: the queries that reach the agent are the stripped lines of the
    input, in order, each once, and never beyond the first quit line.
    When the loop ends normally every line in front of the first quit
    line was dispatched, and the prompt was shown once more than that. *)
Theorem chat_loop_dispatches_in_order (W : world) (n : nat) (stdin : list string) :
  dispatches (trace (chat_loop W n stdin)) `prefix_of` List.map strip (before_quit stdin)
  /\ (snd (chat_loop W n stdin) = inr tt ->
      dispatches (trace (chat_loop W n stdin)) = List.map strip (before_quit stdin)
      /\ length (inputs (trace (chat_loop W n stdin))) = S (length (before_quit stdin))).
Proof.
  revert n. induction stdin as [|line stdin IH]; intros n.
  { rewrite chat_loop_eof. by split. }
  simpl before_quit. destruct (is_quit line) eqn:Hq.
  { apply is_quit_true in Hq. rewrite (chat_loop_quit W n line stdin Hq). by split. }
  pose proof (chat_loop_turn W n line stdin Hq) as Hturn.
  destruct (IH (S n)) as [Hpre Hnormal].
  destruct (ainvoke W n (strip line)) as [e|response].
  - destruct (is_rate_limit (str_exn e)).
    + rewrite Hturn. unfold after, trace in *. simpl. split.
      * by apply prefix_cons.
      * intros Hok. destruct (Hnormal Hok) as [-> ->]. done.
    + rewrite Hturn. simpl. split; [|done].
      apply prefix_cons, prefix_nil.
  - rewrite Hturn. unfold after, trace in *. simpl. split.
    + by apply prefix_cons.
    + intros Hok. destruct (Hnormal Hok) as [-> ->]. done.
Qed.

Lemma chat_loop_dispatches_in_order_witness :
  dispatches (trace (chat_loop (started Samples.echo) 0 [" a "; "b"; " Quit"; "c"]))
  = ["a"; "b"]
  /\ length (inputs (trace (chat_loop (started Samples.echo) 0 [" a "; "b"; " Quit"; "c"]))) = 3.
Proof.
  exact (proj2 (chat_loop_dispatches_in_order
                  (started Samples.echo) 0 [" a "; "b"; " Quit"; "c"]) eq_refl).
Defined.

(** X5: what follows the first quit line is never read: the run is the
    same whatever comes after it. *)
Theorem chat_loop_ignores_after_quit
    (W : world) (n : nat) (pre : list string) (q : string) (rest rest' : list string) :
  is_quit q = true ->
  chat_loop W n (pre ++ q :: rest) = chat_loop W n (pre ++ q :: rest').
Proof.
  intros Hq. revert n. induction pre as [|line pre IH]; intros n; cbn [app].
  { apply is_quit_true in Hq. by rewrite !(chat_loop_quit W n q _ Hq). }
  destruct (is_quit line) eqn:Hl.
  { apply is_quit_true in Hl. by rewrite !(chat_loop_quit W n line _ Hl). }
  pose proof (chat_loop_turn W n line (pre ++ q :: rest) Hl) as H1.
  pose proof (chat_loop_turn W n line (pre ++ q :: rest') Hl) as H2.
  destruct (ainvoke W n (strip line)) as [e|response].
  - destruct (is_rate_limit (str_exn e)).
    + by rewrite H1, H2, IH.
    + by rewrite H1, H2.
  - by rewrite H1, H2, IH.
Qed.

Lemma chat_loop_ignores_after_quit_witness :
  chat_loop (started Samples.echo) 0 (["a"] ++ "QUIT" :: ["b"; "c"])
  = chat_loop (started Samples.echo) 0 (["a"] ++ "QUIT" :: []).
Proof.
  apply (chat_loop_ignores_after_quit (started Samples.echo) 0 ["a"] "QUIT" ["b"; "c"] []).
  reflexivity.
Defined.

(** X6: when a start-up step fails (spawning the server, entering the
    session, the handshake, loading the tools, building the agent), the
    run ends with status 1 and nothing of a session happened: no query
    reached the agent, nothing was printed, the prompt was not read. *)
Theorem startup_failure_is_fatal (W : world) (once : option string) (stdin : list string) :
  ~ startup_ok W ->
  exit_status (run_agent W once stdin) = 1%Z
  /\ dispatches (trace (run_agent W once stdin)) = []
  /\ printed (trace (run_agent W once stdin)) = []
  /\ inputs (trace (run_agent W once stdin)) = [].
Proof.
  intros Hnot. unfold startup_ok in Hnot.
  unfold run_agent, session_body, async_with, step.
  destruct (spawn W); [done|].
  destruct (session_enter W); [done|].
  destruct (initialize W); [done|].
  destruct (load_mcp_tools W); [done|].
  destruct (create_react_agent W); [done|].
  by destruct Hnot.
Qed.

Lemma startup_failure_is_fatal_witness :
  exit_status (run_agent (World None None (Some Samples.broken_pipe) None None
                            Samples.echo "m") None ["hi"]) = 1%Z.
Proof.
  apply (startup_failure_is_fatal
           (World None None (Some Samples.broken_pipe) None None Samples.echo "m")
           None ["hi"]).
  intros (_ & _ & Hi & _). discriminate Hi.
Defined.

Lemma chat_loop_dispatched_lines (W : world) (n : nat) (stdin : list string) (q : string) :
  q ∈ dispatches (trace (chat_loop W n stdin)) ->
  exists line, line ∈ before_quit stdin /\ q = strip line /\ is_quit line = false.
Proof.
  revert n. induction stdin as [|line stdin IH]; intros n.
  { rewrite chat_loop_eof. by intros ?%elem_of_nil. }
  simpl before_quit. destruct (is_quit line) eqn:Hq.
  { apply is_quit_true in Hq. rewrite (chat_loop_quit W n line stdin Hq).
    by intros ?%elem_of_nil. }
  pose proof (chat_loop_turn W n line stdin Hq) as Hturn.
  assert (Hnext : q ∈ dispatches (trace (chat_loop W (S n) stdin)) ->
                  exists l, l ∈ line :: before_quit stdin
                            /\ q = strip l /\ is_quit l = false).
  { intros (l & Hl & ? & ?)%IH. exists l. split; [by right|done]. }
  assert (Hhere : q = strip line ->
                  exists l, l ∈ line :: before_quit stdin
                            /\ q = strip l /\ is_quit l = false).
  { intros ->. exists line. split; [by left|done]. }
  destruct (ainvoke W n (strip line)) as [e|response].
  - destruct (is_rate_limit (str_exn e)).
    + rewrite Hturn. unfold after, trace. simpl.
      intros [Heq|Hin]%elem_of_cons; [by apply Hhere|by apply Hnext].
    + rewrite Hturn. simpl. intros [Heq|Hin]%elem_of_cons; [by apply Hhere|].
      by apply elem_of_nil in Hin.
  - rewrite Hturn. unfold after, trace. simpl.
    intros [Heq|Hin]%elem_of_cons; [by apply Hhere|by apply Hnext].
Qed.

(** X14: what reaches the agent.  In both modes every query handed to
    [agent.ainvoke] is stripped: it has no white space at either end.  In
    interactive mode it is a line of the input and never the quit
    sentinel, in any letter case, though it may be empty; in one-shot mode
    it is the stripped argument and never empty, and the word quit is
    dispatched like any other. *)
Theorem dispatched_queries (W : world) (once : option string) (stdin : list string)
    (q : string) :
  q ∈ dispatches (trace (run_agent W once stdin)) ->
  trimmed q
  /\ match once with
     | None => lower q <> "quit" /\ exists line, line ∈ stdin /\ q = strip line
     | Some o => q = strip o /\ q <> EmptyString
     end.
Proof.
  unfold run_agent, session_body, async_with, step.
  destruct (spawn W); [by intros ?%elem_of_nil|].
  destruct (session_enter W); [by intros ?%elem_of_nil|].
  destruct (initialize W); [by intros ?%elem_of_nil|].
  destruct (load_mcp_tools W); [by intros ?%elem_of_nil|].
  destruct (create_react_agent W); [by intros ?%elem_of_nil|].
  destruct once as [o|].
  - destruct (truthy (strip o)) eqn:Ht; [|by intros ?%elem_of_nil].
    assert (Hne : strip o <> EmptyString) by (by intros Heq; rewrite Heq in Ht).
    unfold agent_ainvoke. destruct (ainvoke W 0 (strip o)) as [e|response].
    + simpl. intros [->|Hin]%elem_of_cons; [|by apply elem_of_nil in Hin].
      split; [apply strip_trimmed|done].
    + unfold bind, emit, ret, print. cbn [fst snd app].
      rewrite format_response_total. simpl.
      intros [->|Hin]%elem_of_cons; [|by apply elem_of_nil in Hin].
      split; [apply strip_trimmed|done].
  - unfold bind, emit, print. cbn [fst snd app].
    destruct (chat_loop W 0 stdin) as [t r] eqn:Hloop. simpl.
    rewrite !dispatches_app. simpl. rewrite !app_nil_r. intros Hin.
    assert (Hin' : q ∈ dispatches (trace (chat_loop W 0 stdin))) by (by rewrite Hloop).
    apply chat_loop_dispatched_lines in Hin' as (line & Hline & -> & Hq).
    split; [apply strip_trimmed|]. split; [by apply is_quit_false|].
    exists line. split; [|done].
    clear -Hline. induction stdin as [|l stdin IH]; simpl in Hline; [done|].
    destruct (is_quit l); [by apply elem_of_nil in Hline|].
    apply elem_of_cons in Hline as [->|Hline]; [by left|right; by apply IH].
Qed.

Lemma dispatched_queries_witness :
  trimmed "quit" /\ "quit" = strip " quit " /\ "quit" <> EmptyString.
Proof.
  apply (dispatched_queries (started Samples.echo) (Some " quit ") [] "quit").
  vm_compute. by left.
Defined.

End LoopMore.

(* ===================================================================== *)
(** * More on the terminal server: the file tools *)
(* ===================================================================== *)

Module TerminalMore.

Import Terminal TerminalFacts Disk.

Lemma proper_prefixes_snoc (l : list string) (x : string) :
  proper_prefixes (l ++ [x]) = proper_prefixes l ++ [l].
Proof.
  induction l as [|a l IH]; [done|]. simpl. by rewrite IH, List.map_app.
Qed.

Lemma snoc_app (cur : list string) (c : string) (q : list string) :
  (cur ++ [c]) ++ q = cur ++ c :: q.
Proof. by rewrite <- app_assoc. Qed.

(** Lookup succeeds when the entry is there and everything above it is a
    directory. *)
Lemma walk_Found_iff (fs : filesystem) (cur rest : list string) (n : node) :
  walk fs cur rest = Found n
  <-> entry fs (cur ++ rest) = Some n
      /\ Forall (fun q => entry fs (cur ++ q) = Some Dir) (proper_prefixes rest).
Proof.
  revert cur. induction rest as [|c r IH]; intros cur; simpl.
  - rewrite app_nil_r. destruct (entry fs cur) as [m|]; split.
    + intros [= ->]. by split.
    + by intros [[= ->] _].
    + done.
    + by intros [? _].
  - rewrite Forall_cons, Forall_map, app_nil_r.
    destruct (entry fs cur) as [[|]|] eqn:Ecur.
    + split; [done|]. by intros (_ & ? & _).
    + rewrite IH, (snoc_app cur c r). split.
      * intros [? Hall]. split; [done|]. split; [done|].
        eapply Forall_impl; [exact Hall|]. intros q. simpl. by rewrite snoc_app.
      * intros (? & _ & Hall). split; [done|].
        eapply Forall_impl; [exact Hall|]. intros q. simpl. by rewrite snoc_app.
    + split; [done|]. by intros (_ & ? & _).
Qed.

Lemma stat_Found_iff (fs : filesystem) (p : list string) (n : node) :
  stat fs p = Found n
  <-> entry fs p = Some n /\ Forall (fun q => entry fs q = Some Dir) (proper_prefixes p).
Proof. unfold stat. by rewrite walk_Found_iff. Qed.

Lemma entry_insert (fs : filesystem) (p q : list string) (n : node) :
  p <> [] ->
  entry (<[p := n]> fs) q = if decide (q = p) then Some n else entry fs q.
Proof.
  intros Hp. destruct q as [|x q]; simpl.
  - by destruct (decide ([] = p)).
  - destruct (decide (x :: q = p)) as [<-|Hne].
    + by rewrite lookup_insert_eq.
    + by rewrite lookup_insert_ne.
Qed.

Lemma proper_prefix_shorter (p q : list string) :
  q ∈ proper_prefixes p -> length q < length p.
Proof.
  intros (rest & Hne & ->)%elem_of_proper_prefixes. rewrite length_app.
  destruct rest; [done|]. simpl. lia.
Qed.

Lemma proper_prefix_ne (p q : list string) : q ∈ proper_prefixes p -> q <> p.
Proof. intros Hq%proper_prefix_shorter ->. lia. Qed.

Lemma parent_snoc (p : list string) :
  p <> [] -> exists x, p = parent p ++ [x].
Proof.
  intros Hp. destruct p as [|y t] using rev_ind; [done|].
  exists y. unfold parent. by rewrite removelast_last.
Qed.

(** A new entry under a directory is found. *)
Lemma stat_insert_eq (fs : filesystem) (p : list string) (n : node) :
  p <> [] ->
  stat fs (parent p) = Found Dir ->
  stat (<[p := n]> fs) p = Found n.
Proof.
  intros Hp Hpar. apply stat_Found_iff. split.
  - rewrite entry_insert by done. by destruct (decide (p = p)).
  - destruct (parent_snoc p Hp) as [x Hx].
    assert (Hlen : length p = S (length (parent p))).
    { rewrite Hx at 1. rewrite length_app. simpl. lia. }
    apply stat_Found_iff in Hpar as [Hent Hall].
    rewrite Hx at 1. rewrite proper_prefixes_snoc. apply Forall_app. split.
    + rewrite Forall_forall in *. intros q Hq. rewrite entry_insert by done.
      destruct (decide (q = p)) as [->|]; [|by apply Hall].
      apply proper_prefix_shorter in Hq. lia.
    + constructor; [|done]. rewrite entry_insert by done.
      destruct (decide (parent p = p)) as [Heq|]; [|done].
      rewrite Heq in Hlen. lia.
Qed.

(** What was found before is found after: a new entry hides nothing, as
    long as it does not turn a directory into a file. *)
Lemma stat_insert_preserved (fs : filesystem) (p q : list string) (n m : node) :
  p <> [] ->
  q <> p ->
  (entry fs p = Some Dir -> n = Dir) ->
  stat fs q = Found m ->
  stat (<[p := n]> fs) q = Found m.
Proof.
  intros Hp Hqp Hdir. rewrite !stat_Found_iff. intros [Hent Hall]. split.
  - rewrite entry_insert by done. by destruct (decide (q = p)).
  - eapply Forall_impl; [exact Hall|]. intros r Hr. simpl in Hr.
    rewrite entry_insert by done. destruct (decide (r = p)) as [->|]; [|done].
    by rewrite (Hdir Hr).
Qed.

(** Lookup of a path by the lookup of its parent. *)
Lemma walk_snoc_eq (fs : filesystem) (cur rest : list string) (c : string) :
  walk fs cur (rest ++ [c])
  = match walk fs cur rest with
    | Found Dir =>
        match entry fs (cur ++ rest ++ [c]) with
        | Some n => Found n
        | None => ENOENT
        end
    | Found (File _) => ENOTDIR
    | other => other
    end.
Proof.
  revert cur. induction rest as [|y r IH]; intros cur; simpl.
  - by destruct (entry fs cur) as [[|]|].
  - destruct (entry fs cur) as [[|]|]; try done.
    by rewrite IH, snoc_app.
Qed.

(** Under a directory a name is there or it is not. *)
Lemma stat_under_dir (fs : filesystem) (p : list string) :
  p <> [] ->
  stat fs (parent p) = Found Dir ->
  stat fs p = match entry fs p with Some n => Found n | None => ENOENT end.
Proof.
  intros Hp Hpar. destruct (parent_snoc p Hp) as [x Hx].
  unfold stat in *. rewrite Hx at 1. rewrite walk_snoc_eq, Hpar. simpl.
  by rewrite <- Hx.
Qed.

Lemma keeps_refl (fs : filesystem) : keeps fs fs.
Proof. by intros q m. Qed.

Lemma keeps_trans (fs1 fs2 fs3 : filesystem) :
  keeps fs1 fs2 -> keeps fs2 fs3 -> keeps fs1 fs3.
Proof. intros H12 H23 q m Hq. by apply H23, H12. Qed.

Lemma keeps_keeps_but (p : list string) (fs1 fs2 fs3 : filesystem) :
  keeps fs1 fs2 -> keeps_but p fs2 fs3 -> keeps_but p fs1 fs3.
Proof. intros H12 H23 q m Hne Hq. by apply H23, H12. Qed.

Lemma stat_ENOENT_ne_nil (fs : filesystem) (p : list string) :
  stat fs p = ENOENT -> p <> [].
Proof. by intros Hs ->. Qed.

(** [create_entry]: the new entry, or an error and no change. *)
Lemma create_entry_spec (p : list string) (n : node) (fs : filesystem) :
  stat fs p = ENOENT ->
  (create_entry p n fs = (<[p := n]> fs, inr tt)
   /\ stat fs (parent p) = Found Dir
   /\ stat (<[p := n]> fs) p = Found n
   /\ keeps fs (<[p := n]> fs))
  \/ (exists cls, create_entry p n fs = (fs, inl (OSError cls p))
      /\ stat fs (parent p) <> Found Dir
      /\ (cls = "FileNotFoundError" <-> stat fs (parent p) = ENOENT)).
Proof.
  intros Hs. pose proof (stat_ENOENT_ne_nil fs p Hs) as Hp.
  unfold create_entry. destruct (stat fs (parent p)) as [[c|]| |] eqn:Hpar.
  - right. exists "NotADirectoryError". by repeat split.
  - left. repeat split; try done.
    + by apply stat_insert_eq.
    + intros q m Hq. apply stat_insert_preserved; try done.
      * intros ->. congruence.
      * intros Hdir. rewrite (stat_under_dir fs p Hp Hpar), Hdir in Hs. done.
  - right. exists "FileNotFoundError". by repeat split.
  - right. exists "NotADirectoryError". by repeat split.
Qed.

(** [mkdir(parents=False, exist_ok=True)] *)
Lemma mkdir_exist_ok_spec (p : list string) (fs : filesystem) :
  match mkdir_exist_ok p fs with
  | (fs', inr _) => stat fs' p = Found Dir /\ keeps fs fs'
  | (fs', inl e) => fs' = fs /\ os_error e
  end.
Proof.
  unfold mkdir_exist_ok, os_mkdir, is_dir.
  destruct (stat fs p) as [[c|]| |] eqn:Hs.
  - change (is_FileNotFoundError (OSError "FileExistsError" p)) with false.
    cbv iota beta. rewrite Hs. split; [done|by eexists _, _].
  - change (is_FileNotFoundError (OSError "FileExistsError" p)) with false.
    cbv iota beta. rewrite Hs. split; [done|apply keeps_refl].
  - destruct (create_entry_spec p Dir fs Hs) as [(-> & _ & Hnew & Hk)|(cls & -> & _ & _)].
    + done.
    + destruct (is_FileNotFoundError (OSError cls p)); [split; [done|by eexists _, _]|].
      rewrite Hs. split; [done|by eexists _, _].
  - change (is_FileNotFoundError (OSError "NotADirectoryError" p)) with false.
    cbv iota beta. rewrite Hs. split; [done|by eexists _, _].
Qed.

(** [mkdir(parents=True, exist_ok=True)]: on success the directory is
    there; in every case nothing that existed is lost or changed. *)
Lemma mkdir_rev_spec (rp : list string) (fs : filesystem) :
  match mkdir_rev rp fs with
  | (fs', inr _) => stat fs' (rev rp) = Found Dir /\ keeps fs fs'
  | (fs', inl e) => keeps fs fs' /\ os_error e
  end.
Proof.
  revert fs. induction rp as [|x rparent IH]; intros fs;
    rewrite mkdir_rev_unfold; unfold os_mkdir, is_dir.
  - simpl rev. change (stat fs []) with (Found Dir).
    change (is_FileNotFoundError (OSError "FileExistsError" [])) with false.
    cbv iota beta. change (stat fs []) with (Found Dir). cbv iota. split; [done|apply keeps_refl].
  - set (p := rev (x :: rparent)).
    destruct (stat fs p) as [[c|]| |] eqn:Hs.
    + change (is_FileNotFoundError (OSError "FileExistsError" p)) with false.
      cbv iota beta. rewrite Hs. split; [apply keeps_refl|by eexists _, _].
    + change (is_FileNotFoundError (OSError "FileExistsError" p)) with false.
      cbv iota beta. rewrite Hs. split; [done|apply keeps_refl].
    + destruct (create_entry_spec p Dir fs Hs) as [(-> & _ & Hnew & Hk)|(cls & -> & _ & _)].
      * done.
      * destruct (is_FileNotFoundError (OSError cls p)).
        -- specialize (IH fs). destruct (mkdir_rev rparent fs) as [fs1 [e1|[]]].
           ++ done.
           ++ destruct IH as [_ Hk1].
              pose proof (mkdir_exist_ok_spec p fs1) as Hm.
              destruct (mkdir_exist_ok p fs1) as [fs2 [e2|[]]].
              ** destruct Hm as [-> ?]. done.
              ** destruct Hm as [? Hk2]. split; [done|by eapply keeps_trans].
        -- rewrite Hs. split; [apply keeps_refl|by eexists _, _].
    + change (is_FileNotFoundError (OSError "NotADirectoryError" p)) with false.
      cbv iota beta. rewrite Hs. split; [apply keeps_refl|by eexists _, _].
Qed.

Lemma mkdir_parents_spec (p : list string) (fs : filesystem) :
  match mkdir_parents p fs with
  | (fs', inr _) => stat fs' p = Found Dir /\ keeps fs fs'
  | (fs', inl e) => keeps fs fs' /\ os_error e
  end.
Proof.
  unfold mkdir_parents. pose proof (mkdir_rev_spec (rev p) fs) as Hm.
  by rewrite rev_involutive in Hm.
Qed.

(** [open(p, mode).write(content)]: on success the file holds the new
    text; in every case no other entry is lost or changed. *)
Lemma write_spec (append : bool) (p : list string) (content : string) (fs : filesystem) :
  match write append p content fs with
  | (fs', inr _) =>
      keeps_but p fs fs'
      /\ exists old,
           stat fs' p = Found (File (if append then old +:+ content else content))
           /\ (forall o, stat fs p = Found (File o) -> old = o)
  | (fs', inl e) => fs' = fs /\ os_error e
  end.
Proof.
  unfold write. destruct (stat fs p) as [[old|]| |] eqn:Hs.
  - assert (Hp : p <> []) by (by intros ->).
    split.
    + intros q m Hne Hq. apply stat_insert_preserved; try done.
      apply stat_Found_iff in Hs as [He _]. rewrite He. done.
    + exists old. split; [|by intros o [= ->]].
      apply stat_insert_eq; [done|]. by eapply stat_parent.
  - split; [done|by eexists _, _].
  - destruct (create_entry_spec p (File content) fs Hs)
      as [(-> & _ & Hnew & Hk)|(cls & -> & _ & _)].
    + split; [by intros q m _; apply Hk|].
      exists EmptyString. split; [by destruct append|done].
    + split; [done|by eexists _, _].
  - split; [done|by eexists _, _].
Qed.

Lemma os_error_text (e : exn) :
  os_error e -> exists rest, str_exn e = String "/"%char rest.
Proof. intros (cls & p & ->). by eexists. Qed.



Lemma read_file_of_file
    (H : host) (f : string) (max_chars : Z) (fs : filesystem)
    (path : list string) (text : string) :
  _safe_path H f = inr path ->
  stat fs path = Found (File text) ->
  read_file H f max_chars fs
  = (fs, if (max_chars <? Z.of_nat (String.length text))%Z
         then slice_to max_chars text +:+ nl +:+ "... (truncated) ..."
         else text).
Proof.
  intros Hsafe Hs. unfold read_file, exists_, read_text. rewrite Hsafe, Hs. simpl.
  by destruct (max_chars <? _)%Z.
Qed.





Lemma substring_0_length (n : nat) (s : string) :
  String.length (String.substring 0 n s) = Nat.min n (String.length s).
Proof.
  revert s. induction n as [|n IH]; intros [|c s]; simpl; try done.
  by rewrite IH.
Qed.

Lemma substring_0_prefix (n : nat) (s : string) :
  String.prefix (String.substring 0 n s) s = true.
Proof.
  revert s. induction n as [|n IH]; intros [|c s]; simpl; try done.
  destruct (ascii_dec c c); [apply IH|done].
Qed.

Lemma length_append (a b : string) :
  String.length (a +:+ b) = (String.length a + String.length b)%nat.
Proof. induction a as [|c a IH]; simpl; [done|]. by rewrite IH. Qed.

(** X10: [read_file] on a file.  The file system is left as it is.  A
    text of at most [max_chars] characters is returned whole.  A longer
    one is cut to its first [max_chars] characters, followed by the
    truncation notice, so the answer never has more than [max_chars] + 20
    characters.  With a negative [max_chars] every text, even an empty
    one, is answered as truncated, cut from its end. *)
Theorem read_file_truncates
    (H : host) (f : string) (max_chars : Z) (fs : filesystem)
    (path : list string) (text : string) :
  _safe_path H f = inr path ->
  stat fs path = Found (File text) ->
  let len := Z.of_nat (String.length text) in
  let notice := nl +:+ "... (truncated) ..." in
  exists answer,
    read_file H f max_chars fs = (fs, answer)
    /\ ((len <= max_chars)%Z -> answer = text)
    /\ ((0 <= max_chars < len)%Z ->
        exists head,
          answer = head +:+ notice
          /\ String.prefix head text = true
          /\ Z.of_nat (String.length head) = max_chars)
    /\ ((0 <= max_chars)%Z -> (Z.of_nat (String.length answer) <= max_chars + 20)%Z)
    /\ ((max_chars < 0)%Z ->
        exists head,
          answer = head +:+ notice
          /\ String.prefix head text = true
          /\ Z.of_nat (String.length head) = Z.max 0 (len + max_chars)).
Proof.
  intros Hsafe Hs len notice.
  rewrite (read_file_of_file H f max_chars fs path text Hsafe Hs).
  eexists. split; [reflexivity|]. fold len.
  destruct (Z.ltb_spec max_chars len) as [Hlt|Hge].
  - assert (Hhead : forall n, (n <= String.length text)%nat ->
              String.length (String.substring 0 n text) = n).
    { intros n Hn. rewrite substring_0_length. lia. }
    split; [lia|]. split; [|split].
    + intros [H0 _]. eexists. split; [reflexivity|].
      split; [apply substring_0_prefix|].
      unfold slice_to. fold len.
      destruct (Z.ltb_spec max_chars 0); [lia|].
      rewrite Hhead by lia. lia.
    + intros H0. rewrite length_append. unfold slice_to. fold len.
      destruct (Z.ltb_spec max_chars 0); [lia|].
      rewrite Hhead by lia. change (String.length (nl +:+ "... (truncated) ...")) with 20%nat. lia.
    + intros Hneg. eexists. split; [reflexivity|].
      split; [apply substring_0_prefix|].
      unfold slice_to. fold len.
      destruct (Z.ltb_spec max_chars 0); [|lia].
      rewrite Hhead by lia. lia.
  - split; [done|]. split; [lia|]. split; [|lia].
    intros _. lia.
Qed.

Lemma read_file_truncates_witness :
  exists answer,
    read_file Samples.machine "notes.txt" 2 Samples.disk = (Samples.disk, answer)
    /\ exists head,
         answer = head +:+ nl +:+ "... (truncated) ..."
         /\ String.prefix head "old" = true
         /\ Z.of_nat (String.length head) = 2%Z.
Proof.
  destruct (read_file_truncates Samples.machine "notes.txt" 2 Samples.disk
              (Samples.workspace ++ ["notes.txt"]) "old" eq_refl)
    as (answer & Hr & _ & Hcut & _).
  - vm_compute. reflexivity.
  - exists answer. split; [exact Hr|]. apply Hcut. simpl. lia.
Defined.

Lemma normalize_plain (acc ps : list string) :
  Forall (fun p => p <> "..") ps -> normalize acc ps = rev acc ++ ps.
Proof.
  intros Hall. revert acc. induction Hall as [|p ps Hp _ IH]; intros acc; simpl.
  - by rewrite app_nil_r.
  - apply String.eqb_neq in Hp. rewrite Hp, IH. simpl. by rewrite <- app_assoc.
Qed.



Lemma tree_by_list (fs : filesystem) :
  forallb (sits_in_dir fs) (map_to_list fs) = true -> tree fs.
Proof.
  intros Hall q n Hq Hne. rewrite forallb_forall in Hall.
  specialize (Hall (q, n)). unfold sits_in_dir, is_dir in Hall. simpl in Hall.
  destruct q as [|x q]; [done|].
  assert (Hin : In (x :: q, n) (map_to_list fs)).
  { apply list_elem_of_In. by apply elem_of_map_to_list. }
  specialize (Hall Hin). by destruct (stat fs (parent (x :: q))) as [[|]| |].
Qed.

Lemma stat_snoc (fs : filesystem) (l : list string) (x : string) :
  stat fs (l ++ [x])
  = match stat fs l with
    | Found Dir =>
        match entry fs (l ++ [x]) with
        | Some n => Found n
        | None => ENOENT
        end
    | Found (File _) => ENOTDIR
    | other => other
    end.
Proof. unfold stat. by rewrite walk_snoc_eq. Qed.

(** [ENOTDIR] means a regular file on the way. *)
Lemma stat_ENOTDIR_file (fs : filesystem) (p : list string) :
  stat fs p = ENOTDIR ->
  exists q c, q `prefix_of` p /\ stat fs q = Found (File c).
Proof.
  induction p as [|x l IH] using rev_ind; [done|].
  rewrite stat_snoc. destruct (stat fs l) as [[c|]| |] eqn:Hl.
  - intros _. exists l, c. split; [by apply prefix_app_r|done].
  - by destruct (entry fs (l ++ [x])).
  - done.
  - intros _. destruct (IH eq_refl) as (q & c & Hq & Hs).
    exists q, c. split; [by apply prefix_app_r|done].
Qed.

Lemma tree_missing (fs : filesystem) (p : list string) :
  tree fs -> stat fs p = ENOENT -> fs !! p = None.
Proof.
  intros Ht Hs. destruct (fs !! p) as [n|] eqn:Hl; [|done].
  pose proof (stat_ENOENT_ne_nil fs p Hs) as Hp.
  pose proof (Ht p n Hl Hp) as Hpar.
  rewrite (stat_under_dir fs p Hp Hpar) in Hs.
  destruct p; [done|]. simpl in Hs. by rewrite Hl in Hs.
Qed.

Lemma is_FileNotFoundError_OSError (cls : string) (p : list string) :
  is_FileNotFoundError (OSError cls p) = true <-> cls = "FileNotFoundError".
Proof. apply String.eqb_eq. Qed.

(** On a tree without a regular file on the way,
    [mkdir(parents=True, exist_ok=True)] succeeds: the directory is there
    afterwards and all that changed are the directories it added. *)
Lemma mkdir_rev_makes (rp : list string) (fs : filesystem) :
  tree fs ->
  no_file_on_way fs (rev rp) ->
  exists fs',
    mkdir_rev rp fs = (fs', inr tt)
    /\ stat fs' (rev rp) = Found Dir
    /\ adds_dirs (rev rp) fs fs'.
Proof.
  intros Htree. induction rp as [|x rparent IH]; intros Hway;
    rewrite mkdir_rev_unfold; unfold os_mkdir, is_dir.
  { exists fs. simpl rev. change (stat fs []) with (Found Dir).
    change (is_FileNotFoundError (OSError "FileExistsError" [])) with false.
    cbv iota beta. change (stat fs []) with (Found Dir). cbv iota.
    repeat split; try done. by left. }
  set (p := rev (x :: rparent)) in *.
  assert (Hp : p = rev rparent ++ [x]) by done.
  assert (Hpar : parent p = rev rparent).
  { unfold parent. by rewrite Hp, removelast_last. }
  destruct (stat fs p) as [[c|]| |] eqn:Hs.
  - by destruct (Hway p c).
  - exists fs.
    change (is_FileNotFoundError (OSError "FileExistsError" p)) with false.
    cbv iota beta. rewrite Hs. repeat split; try done. by left.
  - destruct (create_entry_spec p Dir fs Hs)
      as [(-> & Hpd & Hnew & Hk)|(cls & -> & Hnd & Hcls)].
    + exists (<[p := Dir]> fs). repeat split; try done.
      intros q. destruct (decide (q = p)) as [->|Hne].
      * right. rewrite lookup_insert_eq. repeat split; try done.
        by apply tree_missing.
      * left. by rewrite lookup_insert_ne.
    + assert (Hmiss : stat fs (parent p) = ENOENT).
      { destruct (stat fs (parent p)) as [[c|]| |] eqn:Hpp; try done.
        - destruct (Hway (parent p) c); [|done].
          rewrite Hpar, Hp. by apply prefix_app_r.
        - destruct (stat_ENOTDIR_file fs (parent p) Hpp) as (q & c & Hq & Hqs).
          destruct (Hway q c); [|done].
          etrans; [exact Hq|]. rewrite Hpar, Hp. by apply prefix_app_r. }
      apply Hcls in Hmiss as ->.
      change (is_FileNotFoundError (OSError "FileNotFoundError" p)) with true.
      cbv iota beta.
      destruct IH as (fs1 & -> & Hdir1 & Hadd1).
      { intros q c Hq. apply Hway. etrans; [exact Hq|]. rewrite Hp. by apply prefix_app_r. }
      assert (Hnone : fs !! p = None) by (by apply tree_missing).
      assert (Hnone1 : fs1 !! p = None).
      { destruct (Hadd1 p) as [->|(Hpre & _ & _)]; [done|].
        apply prefix_length in Hpre. rewrite Hp, length_app in Hpre. simpl in Hpre. lia. }
      assert (Hp0 : p <> []) by (by rewrite Hp; destruct (rev rparent)).
      assert (Hs1 : stat fs1 p = ENOENT).
      { rewrite (stat_under_dir fs1 p Hp0) by (by rewrite Hpar).
        destruct p; [done|]. simpl. by rewrite Hnone1. }
      unfold mkdir_exist_ok, os_mkdir. rewrite Hs1.
      destruct (create_entry_spec p Dir fs1 Hs1)
        as [(-> & _ & Hnew & _)|(cls & _ & Hnd1 & _)].
      * exists (<[p := Dir]> fs1). repeat split; try done.
        intros q. destruct (decide (q = p)) as [->|Hne].
        -- right. by rewrite lookup_insert_eq.
        -- rewrite lookup_insert_ne by done.
           destruct (Hadd1 q) as [->|(Hpre & ? & ?)]; [by left|right].
           repeat split; try done. etrans; [exact Hpre|]. rewrite Hp. by apply prefix_app_r.
      * by rewrite Hpar in Hnd1.
  - destruct (stat_ENOTDIR_file fs p Hs) as (q & c & Hq & Hqs).
    by destruct (Hway q c).
Qed.

Lemma stat_prefix_dir (fs : filesystem) (p q : list string) (n : node) :
  stat fs p = Found n -> q ∈ proper_prefixes p -> stat fs q = Found Dir.
Proof.
  rewrite !stat_Found_iff, !Forall_forall. intros [_ Hall] Hq. split; [by apply Hall|].
  intros r Hr. apply Hall.
  apply elem_of_proper_prefixes in Hq as (rest & Hne & ->).
  apply elem_of_proper_prefixes in Hr as (rest' & Hne' & ->).
  apply elem_of_proper_prefixes. exists (rest' ++ rest). split.
  - by destruct rest'.
  - by rewrite app_assoc.
Qed.

(** After the parents were made, a name that was missing is still
    missing, and writing it creates the file. *)
Lemma write_fresh
    (append : bool) (path : list string) (content : string) (fs fs1 : filesystem) :
  tree fs ->
  stat fs path = ENOENT ->
  stat fs1 (parent path) = Found Dir ->
  adds_dirs (parent path) fs fs1 ->
  write append path content fs1 = (<[path := File content]> fs1, inr tt)
  /\ exists_ fs1 path = false
  /\ stat (<[path := File content]> fs1) path = Found (File content)
  /\ keeps fs1 (<[path := File content]> fs1).
Proof.
  intros Htree Hs Hdir1 Hadd.
  pose proof (stat_ENOENT_ne_nil fs path Hs) as Hp.
  assert (Hnone1 : fs1 !! path = None).
  { destruct (Hadd path) as [->|(Hpre & _ & _)]; [by apply tree_missing|].
    destruct (parent_snoc path Hp) as [x Hx].
    apply prefix_length in Hpre. apply (f_equal length) in Hx.
    rewrite length_app in Hx. simpl in Hx. lia. }
  assert (Hs1 : stat fs1 path = ENOENT).
  { rewrite (stat_under_dir fs1 path Hp Hdir1).
    destruct path; [done|]. simpl. by rewrite Hnone1. }
  unfold write, exists_. rewrite Hs1.
  destruct (create_entry_spec path (File content) fs1 Hs1)
    as [(-> & _ & Hnew & Hk)|(cls & _ & Hnd & _)]; done.
Qed.



(** A new entry under a directory keeps the tree, as long as it does not
    turn a directory into a file. *)
Lemma tree_insert (fs : filesystem) (p : list string) (n : node) :
  tree fs ->
  p <> [] ->
  stat fs (parent p) = Found Dir ->
  (entry fs p = Some Dir -> n = Dir) ->
  tree (<[p := n]> fs).
Proof.
  intros Htree Hp Hpar Hdir q m Hq Hq0.
  assert (Hpp : parent p <> p).
  { destruct (parent_snoc p Hp) as [x Hx]. intros Heq.
    apply (f_equal length) in Hx. rewrite Heq, length_app in Hx. simpl in Hx. lia. }
  destruct (decide (q = p)) as [->|Hne].
  - by apply stat_insert_preserved.
  - rewrite lookup_insert_ne in Hq by done.
    pose proof (Htree q m Hq Hq0) as Hqpar.
    destruct (decide (parent q = p)) as [Heq|Hne'].
    + rewrite Heq in *. apply stat_Found_iff in Hqpar as [Hent _].
      rewrite (Hdir Hent). by apply stat_insert_eq.
    + by apply stat_insert_preserved.
Qed.

Lemma create_entry_tree (p : list string) (n : node) (fs : filesystem) :
  stat fs p = ENOENT -> tree fs -> tree (create_entry p n fs).1.
Proof.
  intros Hs Htree. pose proof (stat_ENOENT_ne_nil fs p Hs) as Hp.
  destruct (create_entry_spec p n fs Hs) as [(-> & Hpar & _ & _)|(cls & -> & _ & _)]; [|done].
  apply tree_insert; try done.
  intros Hdir. rewrite (stat_under_dir fs p Hp Hpar), Hdir in Hs. done.
Qed.

Lemma os_mkdir_tree (p : list string) (fs : filesystem) :
  tree fs -> tree (os_mkdir p fs).1.
Proof.
  intros Htree. unfold os_mkdir. destruct (stat fs p) as [[c|]| |] eqn:Hs; try done.
  by apply create_entry_tree.
Qed.

Lemma mkdir_exist_ok_tree (p : list string) (fs : filesystem) :
  tree fs -> tree (mkdir_exist_ok p fs).1.
Proof.
  intros Htree. unfold mkdir_exist_ok.
  pose proof (os_mkdir_tree p fs Htree) as Ht.
  destruct (os_mkdir p fs) as [fs' [e|[]]]; [|done]. simpl in Ht.
  destruct (is_FileNotFoundError e); [done|]. by destruct (is_dir fs' p).
Qed.

Lemma mkdir_rev_tree (rp : list string) (fs : filesystem) :
  tree fs -> tree (mkdir_rev rp fs).1.
Proof.
  revert fs. induction rp as [|x rparent IH]; intros fs Htree;
    rewrite mkdir_rev_unfold.
  - pose proof (os_mkdir_tree [] fs Htree) as Ht'. simpl rev.
    destruct (os_mkdir [] fs) as [fs' [e|[]]]; [|done]. simpl in Ht'.
    destruct (is_FileNotFoundError e); [done|]. by destruct (is_dir fs' []).
  - pose proof (os_mkdir_tree (rev (x :: rparent)) fs Htree) as Ht'.
    destruct (os_mkdir (rev (x :: rparent)) fs) as [fs' [e|[]]]; [|done]. simpl in Ht'.
    destruct (is_FileNotFoundError e).
    + specialize (IH fs' Ht'). destruct (mkdir_rev rparent fs') as [fs1 [e1|[]]]; [done|].
      by apply mkdir_exist_ok_tree.
    + by destruct (is_dir fs' (rev (x :: rparent))).
Qed.

Lemma write_tree (append : bool) (p : list string) (content : string) (fs : filesystem) :
  tree fs -> tree (write append p content fs).1.
Proof.
  intros Htree. unfold write. destruct (stat fs p) as [[old|]| |] eqn:Hs; try done.
  - assert (Hp : p <> []) by (by intros ->).
    apply tree_insert; try done; [by eapply stat_parent|].
    apply stat_Found_iff in Hs as [-> _]. done.
  - by apply create_entry_tree.
Qed.

Lemma tree_empty : tree ∅.
Proof. intros q n Hq. by rewrite lookup_empty in Hq. Qed.



(** X16: a directory is never replaced by a file.  When the target is an
    existing directory, [create_file] and [write_file] leave the file
    system exactly as it was and do not report success, whatever the
    flags. *)
Theorem directory_never_replaced
    (H : host) (f content : string) (flag : bool) (fs : filesystem)
    (path : list string) :
  _safe_path H f = inr path ->
  stat fs path = Found Dir ->
  (create_file H f content flag fs).1 = fs
  /\ (create_file H f content flag fs).2 <> "Created: " +:+ f
  /\ (write_file H f content flag fs).1 = fs
  /\ (write_file H f content flag fs).2 <> "Wrote: " +:+ f.
Proof.
  intros Hsafe Hs. unfold create_file, write_file. rewrite Hsafe.
  rewrite (mkdir_parents_existing fs (parent path) (stat_parent _ _ _ Hs)).
  unfold exists_, write_text, write. rewrite Hs. simpl.
  destruct flag; simpl; repeat split; done.
Qed.

Lemma directory_never_replaced_witness :
  (create_file Samples.machine EmptyString "x" true Samples.disk).1 = Samples.disk
  /\ (write_file Samples.machine EmptyString "x" false Samples.disk).1 = Samples.disk.
Proof.
  destruct (directory_never_replaced Samples.machine EmptyString "x" true Samples.disk
              Samples.workspace eq_refl) as (Hc & _ & _ & _); [by vm_compute|].
  destruct (directory_never_replaced Samples.machine EmptyString "x" false Samples.disk
              Samples.workspace eq_refl) as (_ & _ & Hw & _); [by vm_compute|].
  by split.
Defined.

End TerminalMore.

(* ===================================================================== *)
(** * The terminal server: run_command *)
(* ===================================================================== *)

Module ShellFacts.

Import Terminal Shell Trim StripFacts.

(** X12: [run_command] never raises.  A command that could not be started
    is answered with the text of the exception.  Otherwise the answer is
    the standard output without the white space around it whenever the
    command wrote anything there, even if that is blank (the answer is
    then empty and the error output is dropped), and the error output,
    stripped, only when the standard output is empty.  The command runs
    in the workspace when that is a directory. *)
Theorem run_command_answer
    (H : host) (subprocess_run : string -> option string -> exn + CompletedProcess)
    (command : string) (fs : filesystem) :
  let cwd := if os_path_isdir H fs (DEFAULT_WORKSPACE H)
             then Some (DEFAULT_WORKSPACE H) else None in
  let answer := run_command H subprocess_run command fs in
  match subprocess_run command cwd with
  | inl e => answer = str_exn e
  | inr result =>
      trimmed answer
      /\ (stdout result <> EmptyString -> answer = strip (stdout result))
      /\ (stdout result = EmptyString -> answer = strip (stderr result))
  end.
Proof.
  intros cwd answer. subst cwd answer. unfold run_command.
  destruct (subprocess_run command _) as [e|[out err]]; [done|]. simpl.
  split; [apply strip_trimmed|]. unfold or_.
  destruct out as [|c out]; simpl.
  - split; [done|]. intros _. by destruct err.
  - by split.
Qed.

Lemma run_command_answer_witness :
  run_command Samples.machine ShellSamples.blank_then_error "ls nowhere" Samples.disk
  = EmptyString.
Proof.
  pose proof (run_command_answer Samples.machine ShellSamples.blank_then_error
                "ls nowhere" Samples.disk) as (_ & Hout & _).
  rewrite Hout; [reflexivity|discriminate].
Defined.

End ShellFacts.
